(** * check_structure_trafic.py: the trafic.json validator CLI

    A shallow embedding of [.github/scripts/check_structure_trafic.py]
    and the properties of its report and exit code.

    The script talks to three collaborators it does not define: the file
    system (through [pathlib]), the JSON parser and the [jsonschema]
    validator.  They are gathered in a [World]; the script itself is
    embedded in a small monad that records what the run prints and which
    files it opens, and that carries Python exceptions: those of loading a
    file, which the script catches, and those of the validator, which it
    does not. *)

From Stdlib Require Import ZArith List String Ascii Bool Lia.
From Stdlib Require Import Sorting.Permutation Sorting.Sorted.
From Stdlib Require Import DecimalString.
Import ListNotations.
Open Scope Z_scope.
Open Scope list_scope.
Open Scope string_scope.

Set Implicit Arguments.

(** ** Text *)

(** The line feed of ["\n..."] literals. *)
Definition nl : string := String (ascii_of_nat 10) "".

(** [str(n)] for a Python [int]. *)
Definition str_int (z : Z) : string := NilZero.string_of_int (Z.to_int z).

(** ** Sequence comparison

    Python orders tuples, lists and deques alike: the first position at
    which the items differ decides; when there is none the shorter
    sequence comes first. *)

Section Lex.
Variable A : Type.
Variable cmp : A -> A -> comparison.

Fixpoint lex_compare (l1 l2 : list A) : comparison :=
  match l1, l2 with
  | [], [] => Eq
  | [], _ :: _ => Lt
  | _ :: _, [] => Gt
  | x :: l1', y :: l2' =>
      match cmp x y with
      | Eq => lex_compare l1' l2'
      | c => c
      end
  end.
End Lex.

(** ** [sorted(iterable, key=...)]

    [sorted] is stable and only ever asks [<] of two keys.  On keys that
    [<] orders totally the result of a stable sort is unique, and
    insertion computes it: an element goes in front of the part of the
    list that came after it, behind the keys strictly below its own. *)

Section SortedBy.
Variables A K : Type.
Variable key : A -> K.
Variable lt : K -> K -> bool.

Fixpoint insert (x : A) (l : list A) : list A :=
  match l with
  | [] => [x]
  | y :: l' =>
      if lt (key y) (key x) then y :: insert x l' else x :: y :: l'
  end.

Fixpoint sorted (l : list A) : list A :=
  match l with
  | [] => []
  | x :: l' => insert x (sorted l')
  end.
End SortedBy.

(** ** Paths

    A [pathlib.Path] is the tuple of its parts; an absolute POSIX path
    has ["/"] as first part.  Paths compare as their tuples of parts,
    each part as a string (code point order, which on UTF-8 text is the
    byte order). *)

Definition Path := list string.

(** [root / name] for a single relative segment. *)
Definition path_div (p : Path) (name : string) : Path := (p ++ [name])%list.

(** [str(path)] *)
Definition path_str (p : Path) : string :=
  match p with
  | [] => "."
  | "/" :: rest => "/" ++ String.concat "/" rest
  | _ => String.concat "/" p
  end.

Definition path_compare : Path -> Path -> comparison :=
  lex_compare String.compare.

Definition path_ltb (p q : Path) : bool :=
  match path_compare p q with Lt => true | _ => false end.

(** [sorted(files)] *)
Definition sorted_paths : list Path -> list Path :=
  sorted (fun p : Path => p) path_ltb.

(** ** JSON documents

    The script never looks inside a parsed document: it hands it to the
    validator.  Numbers are kept as their literal. *)

Unset Elimination Schemes.
Inductive Json : Type :=
| JNull
| JBool (b : bool)
| JNum (literal : string)
| JStr (s : string)
| JArr (items : list Json)
| JObj (members : list (string * Json)).
Set Elimination Schemes.

(** ** Validation errors of [jsonschema]

    A path is a deque of object keys and array indices.  [path] is the
    error's [relative_path]; [absolute_path] prepends the absolute path of
    the parent error, when there is one (errors nested in the [context]
    of an [anyOf], for example). *)

Inductive Seg : Type :=
| Key (name : string)
| Idx (i : Z).

Record ValidationError : Type := {
  message : string;
  path : list Seg;
  parent : option (list Seg)
}.

Definition absolute_path (e : ValidationError) : list Seg :=
  match parent e with
  | None => path e
  | Some up => (up ++ path e)%list
  end.

(** [f"{p}"] for a path element. *)
Definition seg_str (p : Seg) : string :=
  match p with
  | Key name => name
  | Idx i => str_int i
  end.

(** Keys compare as strings and indices as integers.  Python refuses to
    order an [int] against a [str] ([TypeError]); two locations of one
    document first differ inside one container, so at two keys or at two
    indices ([locations_compare] below), and the validator reports
    locations of the instance it was given.  The embedding places indices
    before keys. *)
Definition seg_compare (a b : Seg) : comparison :=
  match a, b with
  | Idx i, Idx j => Z.compare i j
  | Key s, Key t => String.compare s t
  | Idx _, Key _ => Lt
  | Key _, Idx _ => Gt
  end.

Definition seg_path_compare : list Seg -> list Seg -> comparison :=
  lex_compare seg_compare.

Definition seg_path_ltb (p q : list Seg) : bool :=
  match seg_path_compare p q with Lt => true | _ => false end.

(** [sorted(errors, key=lambda e: e.path)] *)
Definition sorted_errors : list ValidationError -> list ValidationError :=
  sorted path seg_path_ltb.

(** Python's own comparison of two paths, [None] standing for the
    [TypeError] of an [int] against a [str]. *)
Definition seg_compare_py (a b : Seg) : option comparison :=
  match a, b with
  | Idx i, Idx j => Some (Z.compare i j)
  | Key s, Key t => Some (String.compare s t)
  | _, _ => None
  end.

Fixpoint seg_path_compare_py (p q : list Seg) : option comparison :=
  match p, q with
  | [], [] => Some Eq
  | [], _ :: _ => Some Lt
  | _ :: _, [] => Some Gt
  | a :: p', b :: q' =>
      match seg_compare_py a b with
      | Some Eq => seg_path_compare_py p' q'
      | r => r
      end
  end.

(** [doc[k]] for an object: of a repeated key [json.load] keeps the last
    value. *)
Fixpoint member (k : string) (members : list (string * Json)) : option Json :=
  match members with
  | [] => None
  | (k', v) :: rest =>
      match member k rest with
      | Some v' => Some v'
      | None => if k =? k' then Some v else None
      end
  end.

(** [p] is the path of a location of [doc]. *)
Fixpoint locates (doc : Json) (p : list Seg) : Prop :=
  match p with
  | [] => True
  | Key k :: p' =>
      match doc with
      | JObj members =>
          match member k members with
          | Some v => locates v p'
          | None => False
          end
      | _ => False
      end
  | Idx i :: p' =>
      match doc with
      | JArr items =>
          0 <= i /\
          match nth_error items (Z.to_nat i) with
          | Some v => locates v p'
          | None => False
          end
      | _ => False
      end
  end.

(** ** The world of a run *)

(** What a call that can raise gives back: a value, or the [str()] of the
    exception ([Exception] and its subclasses, which [except Exception]
    catches). *)
Inductive Result (A : Type) : Type :=
| Return (a : A)
| Raise (exc : string).
Arguments Return {A} a.
Arguments Raise {A} exc.

(** The file system and the two libraries, as one run sees them.
    - [fs_exists p] is [p.exists()];
    - [fs_rglob d name] is [list(d.rglob(name))], in the order the
      operating system lists the entries;
    - [fs_load p] is what opening [p] as UTF-8 and [json.load] give;
    - [iter_errors schema instance] is
      [Draft7Validator(schema, format_checker=FormatChecker()).iter_errors(instance)]
      run to its end: the violations of the instance, or the exception the
      library raises on the way (on a schema it cannot read, such as one
      that is not an object, or on a document too deep for it).
    [pathlib] finds nothing under a directory that is not there, and
    yields a path once. *)
Record World : Type := {
  fs_exists : Path -> bool;
  fs_rglob : Path -> string -> list Path;
  fs_load : Path -> Result Json;
  iter_errors : Json -> Json -> Result (list ValidationError);
  rglob_missing : forall d name, fs_exists d = false -> fs_rglob d name = [];
  rglob_once : forall d name, NoDup (fs_rglob d name)
}.

(** ** The monad of the script

    A computation gives the events it caused, in order, and either a
    value or the exception that ended it. *)

Inductive Event : Type :=
| Stdout (line : string)      (* [print(line)] *)
| Stderr (line : string)      (* [print(line, file=sys.stderr)] *)
| Opened (p : Path)           (* [load_json(p)] went to open [p] *)
| Validated (p : Path).       (* the validator ran on the document of [p] *)

Definition M (A : Type) : Type := (list Event * Result A)%type.

Definition ret {A} (a : A) : M A := ([], Return a).

Definition bind {A B} (m : M A) (k : A -> M B) : M B :=
  match m with
  | (log, Return a) => let (log', r) := k a in ((log ++ log')%list, r)
  | (log, Raise exc) => (log, Raise exc)
  end.

Notation "x <- m ;; k" := (bind m (fun x => k))
  (at level 61, m at next level, right associativity).
Notation "m ;; k" := (bind m (fun _ => k))
  (at level 61, right associativity).

Definition emit (e : Event) : M unit := ([e], Return tt).
Definition raise {A} (exc : string) : M A := ([], Raise exc).

(** [try: m  except Exception as exc: ...] hands the outcome to the
    handler code that follows. *)
Definition try {A} (m : M A) : M (Result A) := (fst m, Return (snd m)).

(** [for x in l: st = body(st, x)] *)
Fixpoint for_each {S A} (body : S -> A -> M S) (l : list A) (st : S) : M S :=
  match l with
  | [] => ret st
  | x :: l' => st' <- body st x ;; for_each body l' st'
  end.

Definition print (line : string) : M unit := emit (Stdout line).
Definition eprint (line : string) : M unit := emit (Stderr line).

(** ** The script *)

(** The parsed command line ([argparse] has run): [--schema], [--root],
    [--logo-dir] (absent unless given) and [--quiet]. *)
Record Args : Type := {
  schema : Path;
  root : Path;
  logo_dir : option Path;
  quiet : bool
}.

(** The three locals of the loop of [main]. *)
Record Counters : Type := {
  total : Z;
  invalid : Z;
  all_errors : list string
}.

Section Script.
Variable w : World.

Definition find_trafic_files (root : Path) : list Path :=
  let logo_dir := path_div root "logo" in
  if negb (fs_exists w logo_dir) then []
  else fs_rglob w logo_dir "trafic.json".

Definition load_json (p : Path) : M Json :=
  emit (Opened p) ;;
  match fs_load w p with
  | Return doc => ret doc
  | Raise exc => raise exc
  end.

(** ["".join(f"/{p}" for p in err.absolute_path) or "/"] *)
Definition location (err : ValidationError) : string :=
  let joined :=
    String.concat "" (map (fun p => "/" ++ seg_str p) (absolute_path err)) in
  if joined =? "" then "/" else joined.

Definition render (instance_path : Path) (err : ValidationError) : string :=
  path_str instance_path ++ ": " ++ location err ++ " -> " ++ message err.

Definition validate_instance (schema instance : Json) (instance_path : Path)
  : M (list string) :=
  emit (Validated instance_path) ;;
  match iter_errors w schema instance with
  | Return errs => ret (map (render instance_path) (sorted_errors errs))
  | Raise exc => raise exc
  end.

(** One turn of [for f in sorted(files)]. *)
Definition check_file (schema : Json) (quiet : bool) (st : Counters) (f : Path)
  : M Counters :=
  let total := total st + 1 in
  loaded <- try (load_json f) ;;
  match loaded with
  | Raise exc =>
      ret {| total := total;
             invalid := invalid st + 1;
             all_errors := (all_errors st ++
               [(path_str f ++ ": JSON parse error: " ++ exc)%string])%list |}
  | Return instance =>
      errors <- validate_instance schema instance f ;;
      match errors with
      | _ :: _ =>
          ret {| total := total;
                 invalid := invalid st + 1;
                 all_errors := (all_errors st ++ errors)%list |}
      | [] =>
          (if negb quiet then print ("OK: " ++ path_str f) else ret tt) ;;
          ret {| total := total;
                 invalid := invalid st;
                 all_errors := all_errors st |}
      end
  end.

Definition summary (st : Counters) : string :=
  nl ++ "Checked " ++ str_int (total st) ++ " files: " ++
  str_int (total st - invalid st) ++ " valid, " ++
  str_int (invalid st) ++ " invalid".

(** [main], from the parsed arguments to the value it returns or the
    exception that leaves it. *)
Definition main (args : Args) : M Z :=
  let schema_path := schema args in
  let repo_root := root args in
  let logo_root :=
    match logo_dir args with
    | Some d => d
    | None => path_div repo_root "logo"
    end in
  if negb (fs_exists w schema_path) then
    eprint ("ERROR: schema file not found at " ++ path_str schema_path) ;;
    ret 2
  else
    loaded <- try (load_json schema_path) ;;
    match loaded with
    | Raise exc =>
        eprint ("ERROR: failed to load schema " ++ path_str schema_path ++
                ": " ++ exc) ;;
        ret 2
    | Return schema =>
        let files :=
          match logo_dir args with
          | None => find_trafic_files repo_root
          | Some d => fs_rglob w d "trafic.json"
          end in
        match files with
        | [] =>
            print ("No trafic.json files found under " ++ path_str logo_root) ;;
            ret 0
        | _ :: _ =>
            st <- for_each (check_file schema (quiet args))
                           (sorted_paths files)
                           {| total := 0; invalid := 0; all_errors := [] |} ;;
            match all_errors st with
            | _ :: _ =>
                print (nl ++ "Validation errors:") ;;
                for_each (fun (_ : unit) e => print (" - " ++ e))
                         (all_errors st) tt
            | [] => ret tt
            end ;;
            print (summary st) ;;
            ret (if (invalid st =? 0)%Z then 0 else 1)
        end
    end.
End Script.

(** [raise SystemExit(main())]: the value [main] returns is the exit status
    of the process; an exception that leaves [main] is not caught, and the
    interpreter ends with status 1 after printing the traceback. *)
Definition exit_status (r : Result Z) : Z :=
  match r with
  | Return code => code
  | Raise _ => 1
  end.

(** ** Reading a run *)

(** What a trace shows: the lines on each stream, the files opened and
    the files handed to the validator, each in order of occurrence. *)
Fixpoint stdout (log : list Event) : list string :=
  match log with
  | [] => []
  | Stdout line :: log' => line :: stdout log'
  | _ :: log' => stdout log'
  end.

Fixpoint stderr (log : list Event) : list string :=
  match log with
  | [] => []
  | Stderr line :: log' => line :: stderr log'
  | _ :: log' => stderr log'
  end.

Fixpoint opened (log : list Event) : list Path :=
  match log with
  | [] => []
  | Opened p :: log' => p :: opened log'
  | _ :: log' => opened log'
  end.

Fixpoint validated (log : list Event) : list Path :=
  match log with
  | [] => []
  | Validated p :: log' => p :: validated log'
  | _ :: log' => validated log'
  end.

Section Reading.
Variable w : World.

(** The schema of a run that gets past schema loading. *)
Definition schema_of (args : Args) : option Json :=
  if fs_exists w (schema args) then
    match fs_load w (schema args) with
    | Return doc => Some doc
    | Raise _ => None
    end
  else None.

(** The directory a run searches, and the files it discovers there (the
    value of [files] in [main]). *)
Definition search_dir (args : Args) : Path :=
  match logo_dir args with
  | Some d => d
  | None => path_div (root args) "logo"
  end.

Definition discovered (args : Args) : list Path :=
  match logo_dir args with
  | None => find_trafic_files w (root args)
  | Some d => fs_rglob w d "trafic.json"
  end.

(** A file is invalid when it fails to parse or has a violation. *)
Definition is_invalid (sch : Json) (f : Path) : bool :=
  match fs_load w f with
  | Raise _ => true
  | Return instance =>
      match iter_errors w sch instance with
      | Return (_ :: _) => true
      | _ => false
      end
  end.

(** The exception with which the validator leaves the document of [f],
    if it does. *)
Definition validator_exn (sch : Json) (f : Path) : option string :=
  match fs_load w f with
  | Raise _ => None
  | Return instance =>
      match iter_errors w sch instance with
      | Raise exc => Some exc
      | Return _ => None
      end
  end.

Definition crashes (sch : Json) (f : Path) : bool :=
  match validator_exn sch f with Some _ => true | None => false end.

(** A file is clean when it parses and the validator finds no violation
    in it. *)
Definition is_clean (sch : Json) (f : Path) : bool :=
  match fs_load w f with
  | Raise _ => false
  | Return instance =>
      match iter_errors w sch instance with
      | Return [] => true
      | _ => false
      end
  end.

(** No file of the list makes the validator raise. *)
Definition no_crash (sch : Json) (files : list Path) : Prop :=
  forall f, In f files -> crashes sch f = false.

(** The files the loop gets to: those up to the first on which the
    validator raises, that one included; and the exception of that one. *)
Fixpoint processed (sch : Json) (files : list Path) : list Path :=
  match files with
  | [] => []
  | f :: rest => f :: (if crashes sch f then [] else processed sch rest)
  end.

Fixpoint crash_of (sch : Json) (files : list Path) : option string :=
  match files with
  | [] => None
  | f :: rest =>
      match validator_exn sch f with
      | Some exc => Some exc
      | None => crash_of sch rest
      end
  end.

(** The errors one file adds to [all_errors]. *)
Definition file_errors (sch : Json) (f : Path) : list string :=
  match fs_load w f with
  | Raise exc => [path_str f ++ ": JSON parse error: " ++ exc]
  | Return instance =>
      match iter_errors w sch instance with
      | Return errs => map (render f) (sorted_errors errs)
      | Raise _ => []
      end
  end.

(** The events of one turn of the loop. *)
Definition file_events (sch : Json) (q : bool) (f : Path) : list Event :=
  Opened f ::
  match fs_load w f with
  | Raise _ => []
  | Return instance =>
      Validated f ::
      match iter_errors w sch instance with
      | Return [] => if q then [] else [Stdout ("OK: " ++ path_str f)]
      | _ => []
      end
  end.

(** Does the file parse? *)
Definition parses (f : Path) : bool :=
  match fs_load w f with Return _ => true | Raise _ => false end.

(** The locals of [main] after one more turn of the loop. *)
Definition after_file (sch : Json) (st : Counters) (f : Path) : Counters :=
  {| total := total st + 1;
     invalid := invalid st + (if is_invalid sch f then 1 else 0);
     all_errors := (all_errors st ++ file_errors sch f)%list |}.

(** The locals of [main] when the loop over [files] is over. *)
Definition final_counters (sch : Json) (files : list Path) : Counters :=
  {| total := Z.of_nat (List.length files);
     invalid := Z.of_nat (List.length (filter (is_invalid sch) files));
     all_errors := flat_map (file_errors sch) (sorted_paths files) |}.

(** The error listing printed before the summary. *)
Definition error_block (errors : list string) : list Event :=
  match errors with
  | [] => []
  | _ :: _ =>
      Stdout (nl ++ "Validation errors:") ::
      map (fun e => Stdout (" - " ++ e)) errors
  end.
End Reading.

(** [args] with another [--quiet]. *)
Definition with_quiet (q : bool) (args : Args) : Args :=
  {| schema := schema args; root := root args;
     logo_dir := logo_dir args; quiet := q |}.

(** A confirmation line of a valid file. *)
Definition is_ok_line (e : Event) : bool :=
  match e with
  | Stdout line => String.prefix "OK: " line
  | _ => false
  end.

(** Two worlds that show one unchanged file system to two runs: the same
    files are there with the same content, the library is the same, and
    only the order in which a directory is listed may differ. *)
Record same_files (w1 w2 : World) : Prop := {
  same_exists : forall p, fs_exists w1 p = fs_exists w2 p;
  same_load : forall p, fs_load w1 p = fs_load w2 p;
  same_errors : forall s i, iter_errors w1 s i = iter_errors w2 s i;
  same_rglob : forall d name, Permutation (fs_rglob w1 d name) (fs_rglob w2 d name)
}.

(** Ascending order of violation paths and of file paths. *)
Definition seg_path_le (p q : list Seg) : Prop := seg_path_compare p q <> Gt.
Definition path_le (p q : Path) : Prop := path_compare p q <> Gt.

(** ** Sample worlds *)

Module Sample.
Definition schema_path : Path := ["repo"; ".github"; "models"; "trafic.schema.json"].
Definition repo : Path := ["repo"].
Definition logo : Path := ["repo"; "logo"].
Definition file_a : Path := ["repo"; "logo"; "a"; "trafic.json"].
Definition file_b : Path := ["repo"; "logo"; "b"; "trafic.json"].
Definition file_c : Path := ["repo"; "logo"; "c"; "trafic.json"].

Definition path_eq_dec : forall p q : Path, {p = q} + {p <> q} :=
  list_eq_dec string_dec.

Definition mem (p : Path) (l : list Path) : bool :=
  if in_dec path_eq_dec p l then true else false.

(** [{"type": "object", "required": ["width"]}] *)
Definition the_schema : Json :=
  JObj [("type", JStr "object"); ("required", JArr [JStr "width"])].

Definition file_d : Path := ["repo"; "logo"; "d"; "trafic.json"].
Definition file_e : Path := ["repo"; "logo"; "e"; "trafic.json"].

(** [file_a] holds an array, [file_b] and [file_e] a good object, [file_c]
    is cut short, [file_d] holds a document on which the validator gives
    up. *)
Definition load (p : Path) : Result Json :=
  if path_eq_dec p schema_path then Return the_schema
  else if path_eq_dec p file_a then Return (JArr [])
  else if path_eq_dec p file_b then Return (JObj [("width", JNum "5")])
  else if path_eq_dec p file_c then
    Raise "Expecting value: line 1 column 1 (char 0)"
  else if path_eq_dec p file_d then Return (JStr "nested too deep")
  else if path_eq_dec p file_e then Return (JObj [("width", JNum "7")])
  else Raise "[Errno 2] No such file or directory".

Definition violation (msg : string) (at_ : list Seg) : ValidationError :=
  {| message := msg; path := at_; parent := None |}.

(** A stand-in for the validator: the [required] rule on objects, three
    fixed violations for any array, and an exception on a string. *)
Definition errors_of (sch instance : Json) : Result (list ValidationError) :=
  match instance with
  | JObj members =>
      if existsb (fun m => fst m =? "width") members then Return []
      else Return [violation "'width' is a required property" []]
  | JArr _ =>
      Return [violation "10 is not of type 'string'" [Idx 10];
              violation "9 is not of type 'string'" [Idx 9];
              violation "[] is not of type 'object'" []]
  | JStr _ => Raise "maximum recursion depth exceeded"
  | _ => Return []
  end.

(** A world with the paths [present], where listing [logo] finds
    [found] in that order. *)
Definition world (present found : list Path) : World.
Proof.
  refine {| fs_exists := fun p => mem p present;
            fs_rglob := fun d name =>
              if path_eq_dec d logo then
                if mem logo present then nodup path_eq_dec found else []
              else [];
            fs_load := load;
            iter_errors := errors_of |}.
  - intros d name H. destruct (path_eq_dec d logo) as [->|]; [|reflexivity].
    rewrite H. reflexivity.
  - intros d name. destruct (path_eq_dec d logo); [|constructor].
    destruct (mem logo present); [apply NoDup_nodup|constructor].
Defined.

(** Nothing is there. *)
Definition bare : World := world [] [].
(** The schema is there, the logo directory is not. *)
Definition no_logo : World := world [schema_path] [].
(** Three files, listed out of order. *)
Definition three : World :=
  world [schema_path; logo; file_a; file_b; file_c] [file_c; file_a; file_b].
(** The same three files, listed in another order. *)
Definition three' : World :=
  world [schema_path; logo; file_a; file_b; file_c] [file_b; file_c; file_a].
(** Two files, one valid and one not. *)
Definition two : World :=
  world [schema_path; logo; file_a; file_b] [file_b; file_a].
(** Three files, the one that does not parse between the two others. *)
Definition mixed : World :=
  world [schema_path; logo; file_a; file_c; file_e] [file_e; file_c; file_a].
(** Five files: the validator raises on the fourth in sorted order. *)
Definition five : World :=
  world [schema_path; logo; file_a; file_b; file_c; file_d; file_e]
        [file_e; file_d; file_c; file_b; file_a].

Definition args : Args :=
  {| schema := schema_path; root := repo; logo_dir := None; quiet := false |}.
End Sample.

(** ** More readings of a run *)

(** The header of the error listing, and a line of it. *)
Definition errors_header : string := nl ++ "Validation errors:".

Definition is_error_line (e : Event) : bool :=
  match e with
  | Stdout line => String.prefix " - " line
  | _ => false
  end.

(** How many errors one file adds to [all_errors]: one for a file that
    does not load, else one per violation (none when the validator
    raises). *)
Definition n_errors (w : World) (sch : Json) (f : Path) : nat :=
  match fs_load w f with
  | Raise _ => 1%nat
  | Return instance =>
      match iter_errors w sch instance with
      | Return errs => List.length errs
      | Raise _ => 0%nat
      end
  end.

(** The join of [location], before its [or "/"]. *)
Definition pointer (p : list Seg) : string :=
  String.concat "" (map (fun s => "/" ++ seg_str s) p).

(** The violation is reported at path [k]. *)
Definition at_path (k : list Seg) (e : ValidationError) : bool :=
  match seg_path_compare (path e) k with Eq => true | _ => false end.

(** Two worlds that differ at most in files a run with [args] neither
    looks for nor discovers: the schema and the discovered files load
    alike, directories list alike, and the validator is the same. *)
Record same_inputs (w1 w2 : World) (args : Args) : Prop := {
  inputs_exists : forall p, fs_exists w1 p = fs_exists w2 p;
  inputs_rglob : forall d name, fs_rglob w1 d name = fs_rglob w2 d name;
  inputs_errors : forall s i, iter_errors w1 s i = iter_errors w2 s i;
  inputs_schema : fs_load w1 (schema args) = fs_load w2 (schema args);
  inputs_files :
    forall f, In f (discovered w1 args) -> fs_load w1 f = fs_load w2 f
}.

(** The arguments of a run that names its search directory. *)
Definition with_logo_dir (d : Path) (args : Args) : Args :=
  {| schema := schema args; root := root args;
     logo_dir := Some d; quiet := quiet args |}.

Definition with_root (r : Path) (args : Args) : Args :=
  {| schema := schema args; root := r;
     logo_dir := logo_dir args; quiet := quiet args |}.

Module Sample2.
(** The world [Sample.three] with one more document, which no run with
    [Sample.args] discovers, changed. *)
Definition stray : Path := ["repo"; "notes"; "trafic.json"].

Definition load (p : Path) : Result Json :=
  if Sample.path_eq_dec p stray then Return JNull else Sample.load p.

Definition three : World.
Proof.
  refine {| fs_exists := fs_exists Sample.three;
            fs_rglob := fs_rglob Sample.three;
            fs_load := load;
            iter_errors := iter_errors Sample.three |}.
  - apply (rglob_missing Sample.three).
  - apply (rglob_once Sample.three).
Defined.
End Sample2.

(** * Orders *)

(** A three-way comparison that is a strict total order. *)
Class Order {A : Type} (cmp : A -> A -> comparison) : Prop := {
  cmp_eq : forall x y, cmp x y = Eq <-> x = y;
  cmp_opp : forall x y, cmp y x = CompOpp (cmp x y);
  cmp_lt_trans : forall x y z, cmp x y = Lt -> cmp y z = Lt -> cmp x z = Lt
}.

Section OrderFacts.
Context {A : Type} {cmp : A -> A -> comparison} `{!Order cmp}.

Lemma cmp_refl x : cmp x x = Eq.
Proof. now apply cmp_eq. Qed.

Lemma cmp_gt_lt x y : cmp x y = Gt <-> cmp y x = Lt.
Proof.
  rewrite (cmp_opp (cmp:=cmp) y x).
  destruct (cmp y x); simpl; split; congruence.
Qed.

Lemma cmp_le_trans x y z : cmp x y <> Gt -> cmp y z <> Gt -> cmp x z <> Gt.
Proof.
  intros Hxy Hyz Hxz. apply cmp_gt_lt in Hxz.
  destruct (cmp x y) eqn:Exy; [| |congruence].
  - apply cmp_eq in Exy. subst y. apply cmp_gt_lt in Hxz. congruence.
  - destruct (cmp y z) eqn:Eyz; [| |congruence].
    + apply cmp_eq in Eyz. subst z. apply cmp_gt_lt in Hxz. congruence.
    + assert (cmp x z = Lt) by eauto using cmp_lt_trans.
      apply cmp_gt_lt in Hxz. congruence.
Qed.

Lemma cmp_le_antisym x y : cmp x y <> Gt -> cmp y x <> Gt -> x = y.
Proof.
  intros Hxy Hyx. apply (cmp_eq (cmp:=cmp)).
  rewrite (cmp_opp (cmp:=cmp) x y) in Hyx.
  destruct (cmp x y); simpl in *; congruence.
Qed.
End OrderFacts.

#[export] Instance Z_order : Order Z.compare.
Proof.
  split.
  - apply Z.compare_eq_iff.
  - intros x y. apply Z.compare_antisym.
  - intros x y z. rewrite !Z.compare_lt_iff. lia.
Qed.

#[export] Instance ascii_order : Order Ascii.compare.
Proof.
  split.
  - intros x y. split; [apply Ascii.compare_eq_iff|].
    intros ->. unfold Ascii.compare. apply N.compare_refl.
  - intros x y. apply Ascii.compare_antisym.
  - intros x y z. unfold Ascii.compare. rewrite !N.compare_lt_iff. lia.
Qed.

#[export] Instance lex_order {A} (cmp : A -> A -> comparison) `{!Order cmp} :
  Order (lex_compare cmp).
Proof.
  split.
  - induction x as [|a x IH]; destruct y as [|b y]; simpl;
      try (split; congruence).
    destruct (cmp a b) eqn:E.
    + apply cmp_eq in E. subst b. rewrite IH. split; congruence.
    + split; [congruence|]. intros [= -> _]. rewrite cmp_refl in E. congruence.
    + split; [congruence|]. intros [= -> _]. rewrite cmp_refl in E. congruence.
  - induction x as [|a x IH]; destruct y as [|b y]; simpl; try reflexivity.
    rewrite (cmp_opp (cmp:=cmp) a b). destruct (cmp a b); simpl; auto.
  - induction x as [|a x IH]; destruct y as [|b y]; destruct z as [|c z];
      simpl; try congruence.
    destruct (cmp a b) eqn:Eab; try congruence.
    + apply cmp_eq in Eab. subst b. destruct (cmp a c); try congruence.
      apply IH.
    + intros _. destruct (cmp b c) eqn:Ebc; try congruence.
      * apply cmp_eq in Ebc. subst c. now rewrite Eab.
      * now rewrite (cmp_lt_trans _ _ _ Eab Ebc).
  Qed.

Lemma string_compare_lex s t :
  String.compare s t =
  lex_compare Ascii.compare (list_ascii_of_string s) (list_ascii_of_string t).
Proof.
  revert t. induction s as [|a s IH]; destruct t as [|b t]; simpl; auto.
  rewrite IH. reflexivity.
Qed.

#[export] Instance string_order : Order String.compare.
Proof.
  split.
  - intros x y. rewrite string_compare_lex, cmp_eq. split; [|congruence].
    intros H. rewrite <- (string_of_list_ascii_of_string x),
      <- (string_of_list_ascii_of_string y). congruence.
  - intros x y. rewrite !string_compare_lex. apply cmp_opp.
  - intros x y z. rewrite !string_compare_lex. apply cmp_lt_trans.
Qed.

#[export] Instance seg_order : Order seg_compare.
Proof.
  split.
  - intros [s|i] [t|j]; simpl; try (split; congruence).
    + rewrite cmp_eq. split; congruence.
    + rewrite cmp_eq. split; congruence.
  - intros [s|i] [t|j]; simpl; auto; apply cmp_opp.
  - intros [s|i] [t|j] [u|k]; simpl; try congruence; apply cmp_lt_trans.
Qed.

#[export] Instance path_order : Order path_compare.
Proof. unfold path_compare. exact _. Qed.

#[export] Instance seg_path_order : Order seg_path_compare.
Proof. unfold seg_path_compare. exact _. Qed.

(** On the locations of one document the embedding's order of paths is
    Python's, which raises no [TypeError] there. *)
Lemma locations_compare doc p q :
  locates doc p -> locates doc q ->
  seg_path_compare_py p q = Some (seg_path_compare p q).
Proof.
  revert doc q. induction p as [|a p IH]; intros doc [|b q] Hp Hq;
    try reflexivity.
  destruct a as [s|i], b as [t|j]; destruct doc; simpl in Hp, Hq;
    try contradiction; try (destruct Hp; contradiction).
  - unfold seg_path_compare. simpl.
    destruct (String.compare s t) eqn:E; try reflexivity.
    apply cmp_eq in E. subst t.
    destruct (member s members); [|contradiction]. eapply IH; eassumption.
  - destruct Hp as [_ Hp], Hq as [_ Hq].
    unfold seg_path_compare. simpl.
    destruct (Z.compare i j) eqn:E; try reflexivity.
    apply Z.compare_eq_iff in E. subst j.
    destruct (nth_error items (Z.to_nat i)); [|contradiction].
    eapply IH; eassumption.
Qed.

(** * [sorted] *)

Section SortedFacts.
Context {A K : Type} (key : A -> K) (cmp : K -> K -> comparison) `{!Order cmp}.

Let lt (a b : K) : bool := match cmp a b with Lt => true | _ => false end.
Let le (x y : A) : Prop := cmp (key x) (key y) <> Gt.

Lemma insert_perm x l : Permutation (insert key lt x l) (x :: l).
Proof.
  induction l as [|y l IH]; simpl; auto.
  destruct (lt (key y) (key x)); auto.
  rewrite IH. apply perm_swap.
Qed.

Lemma sorted_perm l : Permutation (sorted key lt l) l.
Proof.
  induction l as [|x l IH]; simpl; auto.
  rewrite insert_perm. auto.
Qed.

Lemma sorted_length l : List.length (sorted key lt l) = List.length l.
Proof. apply Permutation_length, sorted_perm. Qed.

Lemma insert_ascending x l :
  StronglySorted le l -> StronglySorted le (insert key lt x l).
Proof.
  induction 1 as [|y l Hl IH Hy]; simpl.
  - repeat constructor.
  - unfold lt at 1. destruct (cmp (key y) (key x)) eqn:E.
    + constructor; [now constructor|]. constructor.
      * unfold le. rewrite (cmp_opp (cmp:=cmp) (key y) (key x)), E. discriminate.
      * apply cmp_eq in E. eapply Forall_impl; [|exact Hy].
        intros z Hz. unfold le in *. now rewrite <- E.
    + constructor; [exact IH|].
      eapply Permutation_Forall; [symmetry; apply insert_perm|].
      constructor; [|exact Hy]. unfold le. rewrite E. discriminate.
    + assert (Hxy : le x y).
      { unfold le. rewrite (cmp_opp (cmp:=cmp) (key y) (key x)), E. discriminate. }
      constructor; [now constructor|]. constructor; [exact Hxy|].
      eapply Forall_impl; [|exact Hy].
      intros z Hz. unfold le in *. eauto using cmp_le_trans.
Qed.

Lemma sorted_ascending l : StronglySorted le (sorted key lt l).
Proof.
  induction l as [|x l IH]; simpl; [constructor|].
  now apply insert_ascending.
Qed.

Lemma sorted_nil_iff l : sorted key lt l = [] <-> l = [].
Proof.
  split; [|now intros ->].
  intros H. apply length_zero_iff_nil. rewrite <- sorted_length, H. reflexivity.
Qed.
End SortedFacts.

(** Two ascending lists with the same elements are the same list, when
    the order tells all elements apart. *)
Lemma ascending_unique {A} (cmp : A -> A -> comparison) `{!Order cmp} l1 l2 :
  StronglySorted (fun x y => cmp x y <> Gt) l1 ->
  StronglySorted (fun x y => cmp x y <> Gt) l2 ->
  Permutation l1 l2 -> l1 = l2.
Proof.
  intros H1. revert l2. induction H1 as [|a l1 Hl1 IH Ha]; intros l2 H2 HP.
  - now apply Permutation_nil in HP.
  - destruct H2 as [|b l2 Hl2 Hb].
    + symmetry in HP. now apply Permutation_nil in HP.
    + assert (a = b) as <-.
      { assert (Hin1 : In a (b :: l2))
          by (eapply Permutation_in; [exact HP|now left]).
        assert (Hin2 : In b (a :: l1))
          by (eapply Permutation_in; [symmetry; exact HP|now left]).
        destruct Hin1 as [->|Hin1]; [reflexivity|].
        destruct Hin2 as [->|Hin2]; [reflexivity|].
        rewrite Forall_forall in Ha, Hb.
        apply (cmp_le_antisym (cmp:=cmp)); auto. }
      f_equal. apply IH; [exact Hl2|]. eapply Permutation_cons_inv, HP.
Qed.

Lemma sorted_paths_perm files : Permutation (sorted_paths files) files.
Proof. apply (sorted_perm (fun p : Path => p) path_compare). Qed.

Lemma sorted_paths_ascending files : StronglySorted path_le (sorted_paths files).
Proof. apply (sorted_ascending (fun p : Path => p) (cmp:=path_compare)). Qed.

(** The order in which the files were found is forgotten. *)
Lemma sorted_paths_order_free l1 l2 :
  Permutation l1 l2 -> sorted_paths l1 = sorted_paths l2.
Proof.
  intros HP. apply (ascending_unique (cmp:=path_compare)).
  - apply sorted_paths_ascending.
  - apply sorted_paths_ascending.
  - rewrite !sorted_paths_perm. exact HP.
Qed.

Lemma sorted_paths_nil_iff files : sorted_paths files = [] <-> files = [].
Proof. apply (sorted_nil_iff (fun p : Path => p) path_compare). Qed.

Lemma sorted_errors_perm es : Permutation (sorted_errors es) es.
Proof. apply (sorted_perm path seg_path_compare). Qed.

Lemma sorted_errors_ascending es :
  StronglySorted (fun a b => seg_path_le (path a) (path b)) (sorted_errors es).
Proof. apply (sorted_ascending path (cmp:=seg_path_compare)). Qed.

(** * The loop of [main] *)

Lemma filter_perm {A} (f : A -> bool) l1 l2 :
  Permutation l1 l2 -> Permutation (filter f l1) (filter f l2).
Proof.
  induction 1 as [|x l1 l2 _ IH|x y l|l1 l2 l3 _ IH1 _ IH2]; simpl.
  - constructor.
  - destruct (f x); auto.
  - destruct (f x), (f y); auto using perm_swap.
  - now rewrite IH1.
Qed.

Lemma filter_none {A} (f : A -> bool) l :
  (forall x, In x l -> f x = false) -> filter f l = [].
Proof.
  induction l as [|a l IH]; intros H; [reflexivity|].
  simpl. rewrite (H a) by now left. apply IH. intros x Hx. apply H. now right.
Qed.

Section Loop.
Variable w : World.
Variable sch : Json.

Lemma check_file_run q st f :
  check_file w sch q st f =
  (file_events w sch q f,
   match validator_exn w sch f with
   | Some exc => Raise exc
   | None => Return (after_file w sch st f)
   end).
Proof.
  unfold check_file, after_file, file_events, is_invalid, file_errors,
    validator_exn, load_json, validate_instance.
  destruct (fs_load w f) as [instance|exc]; simpl; [|reflexivity].
  destruct (iter_errors w sch instance) as [[|e es]|exc] eqn:E.
  - simpl. destruct q; simpl; now rewrite app_nil_r, Z.add_0_r.
  - cbv beta iota. destruct (sorted_errors (e :: es)) as [|e' es'] eqn:E'.
    + apply (proj1 (sorted_nil_iff path seg_path_compare (e :: es))) in E'.
      discriminate.
    + reflexivity.
  - reflexivity.
Qed.

Lemma crashes_exn f : crashes w sch f = false <-> validator_exn w sch f = None.
Proof.
  unfold crashes. destruct (validator_exn w sch f); split; congruence.
Qed.

Lemma crash_of_none_iff files :
  crash_of w sch files = None <-> no_crash w sch files.
Proof.
  unfold no_crash. induction files as [|f files IH]; cbn [crash_of].
  - split; [intros _ f []|reflexivity].
  - destruct (validator_exn w sch f) as [exc|] eqn:E.
    + split; [discriminate|]. intros H.
      assert (Hf : crashes w sch f = false) by (apply H; now left).
      apply crashes_exn in Hf. congruence.
    + rewrite IH. split.
      * intros H g [<-|Hg]; [now apply crashes_exn|now apply H].
      * intros H g Hg. apply H. now right.
Qed.

Lemma processed_all files : no_crash w sch files -> processed w sch files = files.
Proof.
  unfold no_crash. induction files as [|f files IH]; intros H; [reflexivity|].
  cbn [processed]. rewrite (H f) by now left.
  rewrite IH; [reflexivity|]. intros g Hg. apply H. now right.
Qed.

(** The loop gets to an initial part of the list. *)
Lemma processed_prefix files :
  exists n, processed w sch files = firstn n files.
Proof.
  induction files as [|f files [n IH]]; [now exists 0%nat|].
  cbn [processed]. destruct (crashes w sch f).
  - now exists 1%nat.
  - exists (S n). cbn [firstn]. now rewrite IH.
Qed.

Lemma processed_incl files f :
  In f (processed w sch files) -> In f files.
Proof.
  induction files as [|g files IH]; [intros []|].
  cbn [processed]. intros [<-|H]; [now left|]. right.
  destruct (crashes w sch g); [destruct H|now apply IH].
Qed.

Lemma no_crash_perm l1 l2 :
  Permutation l1 l2 -> no_crash w sch l1 -> no_crash w sch l2.
Proof.
  intros HP H f Hf. apply H. eapply Permutation_in; [symmetry; exact HP|exact Hf].
Qed.

Lemma for_each_check_file q files st :
  for_each (check_file w sch q) files st =
  (flat_map (file_events w sch q) (processed w sch files),
   match crash_of w sch files with
   | Some exc => Raise exc
   | None =>
       Return {| total := total st + Z.of_nat (List.length files);
                 invalid := invalid st +
                            Z.of_nat (List.length (filter (is_invalid w sch) files));
                 all_errors :=
                   (all_errors st ++ flat_map (file_errors w sch) files)%list |}
   end).
Proof.
  revert st. induction files as [|f files IH]; intros st.
  - simpl. unfold ret. now rewrite !Z.add_0_r, app_nil_r; destruct st.
  - cbn [for_each processed crash_of]. rewrite check_file_run. unfold crashes.
    destruct (validator_exn w sch f) as [exc|] eqn:E.
    + cbn. now rewrite app_nil_r.
    + unfold bind. rewrite IH. cbn [flat_map].
      destruct (crash_of w sch files); [reflexivity|].
      cbn [after_file total invalid all_errors filter].
      f_equal. f_equal. f_equal.
      * cbn [List.length]. lia.
      * destruct (is_invalid w sch f); cbn [List.length]; lia.
      * now rewrite <- app_assoc.
Qed.

Lemma loop_run q files :
  no_crash w sch files ->
  for_each (check_file w sch q) (sorted_paths files)
           {| total := 0; invalid := 0; all_errors := [] |} =
  (flat_map (file_events w sch q) (sorted_paths files),
   Return (final_counters w sch files)).
Proof.
  intros Hc.
  assert (Hc' : no_crash w sch (sorted_paths files))
    by (eapply no_crash_perm; [symmetry; apply sorted_paths_perm|exact Hc]).
  rewrite for_each_check_file, (processed_all Hc'),
    (proj2 (crash_of_none_iff _) Hc').
  unfold final_counters. cbn.
  f_equal. f_equal. f_equal.
  - f_equal. apply Permutation_length, sorted_paths_perm.
  - f_equal. apply Permutation_length, filter_perm, sorted_paths_perm.
Qed.

Lemma loop_crash q files exc st :
  crash_of w sch files = Some exc ->
  for_each (check_file w sch q) files st =
  (flat_map (file_events w sch q) (processed w sch files), Raise exc).
Proof. intros H. now rewrite for_each_check_file, H. Qed.
End Loop.

Lemma print_errors_run errors :
  for_each (fun (_ : unit) e => print (" - " ++ e)) errors tt =
  (map (fun e => Stdout (" - " ++ e)) errors, Return tt).
Proof.
  induction errors as [|e errors IH]; [reflexivity|].
  change (for_each (fun (_ : unit) e => print (" - " ++ e)) (e :: errors) tt)
    with (let (log, r) := for_each (fun (_ : unit) e => print (" - " ++ e))
                                   errors tt in
          ((Stdout (" - " ++ e) :: log)%list, r)).
  now rewrite IH.
Qed.

(** * The four ways through [main] *)

Section Main.
Variable w : World.
Variable args : Args.

Lemma main_schema_missing :
  fs_exists w (schema args) = false ->
  main w args =
  ([Stderr ("ERROR: schema file not found at " ++ path_str (schema args))],
   Return 2).
Proof. intros H. unfold main. rewrite H. reflexivity. Qed.

Lemma main_schema_unreadable exc :
  fs_exists w (schema args) = true ->
  fs_load w (schema args) = Raise exc ->
  main w args =
  ([Opened (schema args);
    Stderr ("ERROR: failed to load schema " ++ path_str (schema args) ++
            ": " ++ exc)],
   Return 2).
Proof.
  intros H1 H2. unfold main, load_json. rewrite H1, H2. reflexivity.
Qed.

Lemma schema_of_some sch :
  schema_of w args = Some sch <->
  fs_exists w (schema args) = true /\ fs_load w (schema args) = Return sch.
Proof.
  unfold schema_of. destruct (fs_exists w (schema args)).
  - destruct (fs_load w (schema args)); split.
    + intros [= ->]. auto.
    + intros [_ [= ->]]. reflexivity.
    + discriminate.
    + intros [_ [=]].
  - split; [discriminate|]. intros [[=] _].
Qed.

Lemma schema_of_none :
  schema_of w args = None <->
  fs_exists w (schema args) = false \/
  exists exc, fs_load w (schema args) = Raise exc.
Proof.
  unfold schema_of. destruct (fs_exists w (schema args)).
  - destruct (fs_load w (schema args)) as [doc|exc]; split.
    + discriminate.
    + intros [H|[exc H]]; discriminate.
    + eauto.
    + reflexivity.
  - split; auto.
Qed.

Lemma main_no_files sch :
  schema_of w args = Some sch ->
  discovered w args = [] ->
  main w args =
  ([Opened (schema args);
    Stdout ("No trafic.json files found under " ++ path_str (search_dir args))],
   Return 0).
Proof.
  intros Hs Hd. apply schema_of_some in Hs. destruct Hs as [H1 H2].
  unfold main, load_json. rewrite H1, H2. cbn.
  unfold discovered in Hd. rewrite Hd. reflexivity.
Qed.

Lemma main_files sch :
  schema_of w args = Some sch ->
  discovered w args <> [] ->
  no_crash w sch (discovered w args) ->
  let st := final_counters w sch (discovered w args) in
  main w args =
  ((Opened (schema args) ::
    flat_map (file_events w sch (quiet args)) (sorted_paths (discovered w args)) ++
    error_block (all_errors st) ++ [Stdout (summary st)])%list,
   Return (if (invalid st =? 0)%Z then 0 else 1)).
Proof.
  intros Hs Hd Hc st. apply schema_of_some in Hs. destruct Hs as [H1 H2].
  unfold main, load_json. rewrite H1. cbn [negb]. rewrite H2.
  fold (discovered w args).
  destruct (discovered w args) as [|f files] eqn:E; [congruence|].
  cbn [bind try emit ret fst snd app].
  rewrite (loop_run (quiet args) Hc). fold st.
  cbn [bind try emit ret fst snd app print].
  destruct (all_errors st) as [|e errors] eqn:Ee.
  - reflexivity.
  - rewrite print_errors_run.
    cbn [bind try emit ret fst snd app print error_block].
    reflexivity.
Qed.

(** The validator raises on a discovered file: the exception leaves
    [main] after the files up to that one, with no listing and no
    summary. *)
Lemma main_crash sch exc :
  schema_of w args = Some sch ->
  crash_of w sch (sorted_paths (discovered w args)) = Some exc ->
  main w args =
  (Opened (schema args) ::
   flat_map (file_events w sch (quiet args))
            (processed w sch (sorted_paths (discovered w args))),
   Raise exc).
Proof.
  intros Hs Hc. apply schema_of_some in Hs. destruct Hs as [H1 H2].
  unfold main, load_json. rewrite H1. cbn [negb]. rewrite H2.
  fold (discovered w args).
  destruct (discovered w args) as [|f files] eqn:E; [discriminate Hc|].
  cbn [bind try emit ret fst snd app].
  rewrite loop_crash with (exc := exc); [reflexivity|exact Hc].
Qed.

(** Past schema loading a run goes one of three ways. *)
Lemma run_cases sch :
  discovered w args = [] \/
  (discovered w args <> [] /\ no_crash w sch (discovered w args)) \/
  (exists exc, crash_of w sch (sorted_paths (discovered w args)) = Some exc).
Proof.
  destruct (crash_of w sch (sorted_paths (discovered w args))) as [exc|] eqn:E.
  - right. right. now exists exc.
  - apply crash_of_none_iff in E.
    assert (Hc : no_crash w sch (discovered w args))
      by (eapply no_crash_perm; [apply sorted_paths_perm|exact E]).
    destruct (discovered w args); [now left|].
    right. left. split; [discriminate|exact Hc].
Qed.

(** Both ways at once. *)
Lemma main_run sch :
  schema_of w args = Some sch ->
  discovered w args <> [] ->
  let files := sorted_paths (discovered w args) in
  let st := final_counters w sch (discovered w args) in
  main w args =
  ((Opened (schema args) ::
    flat_map (file_events w sch (quiet args)) (processed w sch files) ++
    match crash_of w sch files with
    | Some _ => []
    | None => error_block (all_errors st) ++ [Stdout (summary st)]
    end)%list,
   match crash_of w sch files with
   | Some exc => Raise exc
   | None => Return (if (invalid st =? 0)%Z then 0 else 1)
   end).
Proof.
  intros Hs Hd files st. subst files.
  destruct (crash_of w sch (sorted_paths (discovered w args))) as [exc|] eqn:E.
  - rewrite (main_crash Hs E). now rewrite app_nil_r.
  - apply crash_of_none_iff in E.
    assert (Hc : no_crash w sch (discovered w args))
      by (eapply no_crash_perm; [apply sorted_paths_perm|exact E]).
    rewrite (main_files Hs Hd Hc). now rewrite (processed_all E).
Qed.
End Main.
Arguments main_files w args [sch] _ _ _.
Arguments main_run w args [sch] _ _.

(** What the loop gets to depends on the files through the validator's
    exceptions alone. *)
Lemma processed_ext w1 w2 sch files :
  (forall f, In f files -> validator_exn w1 sch f = validator_exn w2 sch f) ->
  processed w1 sch files = processed w2 sch files /\
  crash_of w1 sch files = crash_of w2 sch files.
Proof.
  induction files as [|f files IH]; intros H; [split; reflexivity|].
  cbn [processed crash_of]. unfold crashes. rewrite (H f) by now left.
  destruct IH as [IH1 IH2]; [intros g Hg; apply H; now right|].
  rewrite IH1, IH2. split; reflexivity.
Qed.

(** * Reading the trace of a run *)

Lemma stdout_app l1 l2 : stdout (l1 ++ l2) = (stdout l1 ++ stdout l2)%list.
Proof.
  induction l1 as [|[line|line|p|p] l1 IH]; simpl; auto. now rewrite IH.
Qed.

Lemma opened_app l1 l2 : opened (l1 ++ l2) = (opened l1 ++ opened l2)%list.
Proof.
  induction l1 as [|[line|line|p|p] l1 IH]; simpl; auto. now rewrite IH.
Qed.

Lemma validated_app l1 l2 :
  validated (l1 ++ l2) = (validated l1 ++ validated l2)%list.
Proof.
  induction l1 as [|[line|line|p|p] l1 IH]; simpl; auto. now rewrite IH.
Qed.

Lemma opened_error_block errors : opened (error_block errors) = [].
Proof.
  destruct errors as [|e errors]; [reflexivity|]. simpl.
  induction errors; simpl; auto.
Qed.

Lemma validated_error_block errors : validated (error_block errors) = [].
Proof.
  destruct errors as [|e errors]; [reflexivity|]. simpl.
  induction errors; simpl; auto.
Qed.

Section TraceOfLoop.
Variable w : World.
Variable sch : Json.

(** The three outcomes of the validator on a file that parses. *)
Ltac by_outcome f :=
  destruct (fs_load w f) as [?instance|?exc];
  [destruct (iter_errors w sch _) as [[|? ?]|?]|].

Lemma opened_file_events q files :
  opened (flat_map (file_events w sch q) files) = files.
Proof.
  induction files as [|f files IH]; [reflexivity|].
  cbn [flat_map]. rewrite opened_app, IH. unfold file_events.
  by_outcome f; try destruct q; reflexivity.
Qed.

Lemma validated_file_events q files :
  validated (flat_map (file_events w sch q) files) = filter (parses w) files.
Proof.
  induction files as [|f files IH]; [reflexivity|].
  cbn [flat_map filter]. rewrite validated_app, IH. unfold file_events, parses.
  by_outcome f; try destruct q; reflexivity.
Qed.

Lemma clean_iff f :
  is_clean w sch f = negb (is_invalid w sch f) && negb (crashes w sch f).
Proof.
  unfold is_clean, is_invalid, crashes, validator_exn.
  by_outcome f; reflexivity.
Qed.

Lemma clean_when_no_crash files :
  no_crash w sch files ->
  filter (is_clean w sch) files =
  filter (fun f => negb (is_invalid w sch f)) files.
Proof.
  intros Hc. apply filter_ext_in. intros f Hf.
  rewrite clean_iff, (Hc f Hf). apply andb_true_r.
Qed.

Lemma stdout_file_events_clean q files :
  stdout (flat_map (file_events w sch q) files) =
  if q then []
  else map (fun f => "OK: " ++ path_str f) (filter (is_clean w sch) files).
Proof.
  induction files as [|f files IH]; [now destruct q|].
  cbn [flat_map filter]. rewrite stdout_app, IH.
  unfold file_events, is_clean.
  by_outcome f; destruct q; reflexivity.
Qed.

Lemma stdout_file_events q files :
  no_crash w sch files ->
  stdout (flat_map (file_events w sch q) files) =
  if q then []
  else map (fun f => "OK: " ++ path_str f)
           (filter (fun f => negb (is_invalid w sch f)) files).
Proof.
  intros Hc. now rewrite stdout_file_events_clean, (clean_when_no_crash Hc).
Qed.

Lemma is_invalid_errors f :
  is_invalid w sch f = true <-> file_errors w sch f <> [].
Proof.
  unfold is_invalid, file_errors.
  destruct (fs_load w f) as [instance|exc]; [|split; congruence].
  destruct (iter_errors w sch instance) as [[|e es]|exc] eqn:E.
  - split; [discriminate|]. intros H. now contradiction H.
  - split; [|reflexivity]. intros _ H. apply map_eq_nil in H.
    apply (proj1 (sorted_nil_iff path seg_path_compare (e :: es))) in H.
    discriminate.
  - split; [discriminate|]. intros H. now contradiction H.
Qed.

Lemma no_crash_sorted files :
  no_crash w sch files -> no_crash w sch (sorted_paths files).
Proof. apply no_crash_perm. symmetry. apply sorted_paths_perm. Qed.
End TraceOfLoop.

(** * Facts shared by the properties of a run *)

Section RunFacts.
Variable w : World.
Variable args : Args.
Variable sch : Json.
Hypothesis Hs : schema_of w args = Some sch.

Lemma summary_is_last :
  discovered w args <> [] ->
  no_crash w sch (discovered w args) ->
  let st := final_counters w sch (discovered w args) in
  fst (main w args) =
  ((Opened (schema args) ::
    flat_map (file_events w sch (quiet args)) (sorted_paths (discovered w args)) ++
    error_block (all_errors st)) ++ [Stdout (summary st)])%list.
Proof.
  intros Hd Hc st. rewrite (main_files w args Hs Hd Hc). cbn [fst]. fold st.
  now rewrite <- app_comm_cons, <- app_assoc.
Qed.

Lemma clean_no_crash files :
  (forall f, In f files -> is_clean w sch f = true) ->
  no_crash w sch files /\
  forall f, In f files -> is_invalid w sch f = false.
Proof.
  intros Hall. split; intros f Hf; specialize (Hall f Hf);
    rewrite clean_iff in Hall; apply andb_prop in Hall;
    destruct Hall as [H1 H2]; now apply negb_true_iff.
Qed.

Lemma returns_0_when_all_valid :
  no_crash w sch (discovered w args) ->
  (forall f, In f (discovered w args) -> is_invalid w sch f = false) ->
  snd (main w args) = Return 0.
Proof.
  intros Hc Hall.
  assert (Hcase : discovered w args = [] \/ discovered w args <> [])
    by (destruct (discovered w args); [now left|now right]).
  destruct Hcase as [Hd|Hd].
  - now rewrite (main_no_files w args Hs Hd).
  - rewrite (main_files w args Hs Hd Hc).
    cbn [snd final_counters invalid].
    rewrite (filter_none _ _ Hall). reflexivity.
Qed.

Lemma returns_0_when_all_clean :
  (forall f, In f (discovered w args) -> is_clean w sch f = true) ->
  snd (main w args) = Return 0.
Proof.
  intros Hall. apply clean_no_crash in Hall. destruct Hall as [Hc Hall].
  now apply returns_0_when_all_valid.
Qed.

Lemma returns_1_when_some_invalid f :
  no_crash w sch (discovered w args) ->
  In f (discovered w args) -> is_invalid w sch f = true ->
  snd (main w args) = Return 1.
Proof.
  intros Hc Hin Hbad.
  assert (Hd : discovered w args <> [])
    by (intros E; rewrite E in Hin; destruct Hin).
  rewrite (main_files w args Hs Hd Hc).
  cbn [snd final_counters invalid].
  assert (Hf : In f (filter (is_invalid w sch) (discovered w args)))
    by (apply filter_In; auto).
  destruct (filter (is_invalid w sch) (discovered w args)); [destruct Hf|].
  reflexivity.
Qed.

Lemma raises_when_validator_raises exc :
  crash_of w sch (sorted_paths (discovered w args)) = Some exc ->
  snd (main w args) = Raise exc.
Proof. intros Hc. now rewrite (main_crash w args Hs Hc). Qed.

Lemma status_1_when_some_invalid f :
  In f (discovered w args) -> is_invalid w sch f = true ->
  exit_status (snd (main w args)) = 1.
Proof.
  intros Hin Hbad. destruct (run_cases w args sch) as [Hd|[[Hd Hc]|[exc Hc]]].
  - rewrite Hd in Hin. destruct Hin.
  - now rewrite (returns_1_when_some_invalid f Hc Hin Hbad).
  - now rewrite (raises_when_validator_raises Hc).
Qed.

Lemma discovered_once : NoDup (discovered w args).
Proof.
  unfold discovered, find_trafic_files.
  destruct (logo_dir args); [apply rglob_once|].
  destruct (negb _); [constructor|apply rglob_once].
Qed.
End RunFacts.
Arguments summary_is_last w args [sch] _ _ _.
Arguments returns_0_when_all_valid w args [sch] _ _ _.
Arguments returns_0_when_all_clean w args [sch] _ _.
Arguments returns_1_when_some_invalid w args [sch] _ f _ _ _.
Arguments raises_when_validator_raises w args [sch] _ [exc] _.
Arguments status_1_when_some_invalid w args [sch] _ f _ _.

(** * Exit code *)

(** [no_crash] and the like, by computation. *)
Lemma no_crash_forallb w sch files :
  forallb (fun f => negb (crashes w sch f)) files = true -> no_crash w sch files.
Proof.
  intros H f Hf. rewrite forallb_forall in H. specialize (H f Hf).
  now apply negb_true_iff.
Qed.

Lemma all_clean_forallb w sch files :
  forallb (is_clean w sch) files = true ->
  forall f, In f files -> is_clean w sch f = true.
Proof. intros H. now apply forallb_forall. Qed.

(** C1.  [main] returns 2 when the schema file is missing or does not
    load, and then the run opens no file but the schema, hands nothing to
    the validator and prints nothing on standard output.  Past schema
    loading it returns 0 when every discovered file parses and validates
    cleanly (also when no file is discovered); when some discovered file
    is invalid the exit status of the process is 1: [main] returns 1,
    unless the validator raises on a file, and then the uncaught exception
    ends the process with status 1 as well. *)
Theorem exit_code_of_run (w : World) (args : Args) :
  ((fs_exists w (schema args) = false \/
    (exists exc, fs_load w (schema args) = Raise exc)) ->
   snd (main w args) = Return 2 /\
   validated (fst (main w args)) = [] /\
   incl (opened (fst (main w args))) [schema args] /\
   stdout (fst (main w args)) = []) /\
  (forall sch, schema_of w args = Some sch ->
   (forall f, In f (discovered w args) -> is_clean w sch f = true) ->
   snd (main w args) = Return 0) /\
  (forall sch, schema_of w args = Some sch ->
   (exists f, In f (discovered w args) /\ is_invalid w sch f = true) ->
   exit_status (snd (main w args)) = 1 /\
   (no_crash w sch (discovered w args) -> snd (main w args) = Return 1)).
Proof.
  split; [|split].
  - intros H. destruct (fs_exists w (schema args)) eqn:Ex.
    + destruct H as [H|[exc H]]; [discriminate|].
      rewrite (main_schema_unreadable w args Ex H). cbn.
      repeat split; auto. apply incl_refl.
    + rewrite (main_schema_missing w args Ex). cbn.
      repeat split; auto. apply incl_nil_l.
  - intros sch Hs Hall. now apply returns_0_when_all_clean with sch.
  - intros sch Hs [f [Hin Hbad]]. split.
    + now apply status_1_when_some_invalid with sch f.
    + intros Hc. now apply returns_1_when_some_invalid with sch f.
Qed.

Lemma exit_code_of_run_witness :
  snd (main Sample.bare Sample.args) = Return 2 /\
  snd (main Sample.no_logo Sample.args) = Return 0 /\
  snd (main Sample.three Sample.args) = Return 1 /\
  exit_status (snd (main Sample.five Sample.args)) = 1.
Proof.
  split; [|split; [|split]].
  - apply (proj1 (exit_code_of_run Sample.bare Sample.args)).
    left. reflexivity.
  - apply (proj1 (proj2 (exit_code_of_run Sample.no_logo Sample.args))
             Sample.the_schema).
    + reflexivity.
    + intros f Hf. vm_compute in Hf. destruct Hf.
  - apply (proj2 (proj2 (exit_code_of_run Sample.three Sample.args))
             Sample.the_schema).
    + reflexivity.
    + exists Sample.file_c. split; [vm_compute; auto|reflexivity].
    + apply no_crash_forallb. reflexivity.
  - apply (proj2 (proj2 (exit_code_of_run Sample.five Sample.args))
             Sample.the_schema).
    + reflexivity.
    + exists Sample.file_c. split; [vm_compute; tauto|reflexivity].
Defined.

(** * Counting invalid files *)



(** * Files that do not parse *)

(** C3, as the specification words it, fails: the call of the validator
    is outside the [try], so an exception it raises on one file ends the
    batch.  Here [file_c] does not parse and the validator raises on
    [file_d], the next file: the exception leaves [main], [file_e] is never
    opened and the error recorded for [file_c] is never printed. *)
Lemma batch_aborted_by_validator :
  In Sample.file_c (discovered Sample.five Sample.args) /\
  fs_load Sample.five Sample.file_c =
    Raise "Expecting value: line 1 column 1 (char 0)" /\
  snd (main Sample.five Sample.args) = Raise "maximum recursion depth exceeded" /\
  opened (fst (main Sample.five Sample.args)) =
    [Sample.schema_path; Sample.file_a; Sample.file_b; Sample.file_c;
     Sample.file_d] /\
  stdout (fst (main Sample.five Sample.args)) = ["OK: repo/logo/b/trafic.json"].
Proof.
  split; [vm_compute; tauto|]. repeat split.
Qed.

(** C3, amended.  A discovered file whose content does not load adds
    exactly one error, the parse error of that file, counts as invalid
    once, and does not end the loop, which goes on with the files that
    follow; the exit status of the process is then 1.  In a run in which
    the validator raises on no file, every discovered file is opened, in
    sorted order, every file that parses is validated, the error is listed
    and [main] returns 1. *)
Theorem parse_failure_is_isolated (w : World) (args : Args) (sch : Json)
  (f : Path) (exc : string)
  (Hs : schema_of w args = Some sch)
  (Hf : In f (discovered w args))
  (Hexc : fs_load w f = Raise exc) :
  let synthetic := path_str f ++ ": JSON parse error: " ++ exc in
  let counted st :=
    {| total := total st + 1;
       invalid := invalid st + 1;
       all_errors := (all_errors st ++ [synthetic])%list |} in
  (forall st,
     check_file w sch (quiet args) st f = ([Opened f], Return (counted st))) /\
  (forall st rest,
     for_each (check_file w sch (quiet args)) (f :: rest) st =
     (Opened f :: fst (for_each (check_file w sch (quiet args)) rest (counted st)),
      snd (for_each (check_file w sch (quiet args)) rest (counted st)))) /\
  file_errors w sch f = [synthetic] /\
  is_invalid w sch f = true /\
  exit_status (snd (main w args)) = 1 /\
  (no_crash w sch (discovered w args) ->
   opened (fst (main w args)) = schema args :: sorted_paths (discovered w args) /\
   validated (fst (main w args)) =
     filter (parses w) (sorted_paths (discovered w args)) /\
   In (Stdout (" - " ++ synthetic)) (fst (main w args)) /\
   snd (main w args) = Return 1).
Proof.
  intros synthetic counted.
  assert (Herr : file_errors w sch f = [synthetic])
    by (unfold file_errors; now rewrite Hexc).
  assert (Hbad : is_invalid w sch f = true)
    by (unfold is_invalid; now rewrite Hexc).
  assert (Hexn : validator_exn w sch f = None)
    by (unfold validator_exn; now rewrite Hexc).
  assert (Hd : discovered w args <> [])
    by (intros E; rewrite E in Hf; destruct Hf).
  assert (Hturn : forall st,
            check_file w sch (quiet args) st f = ([Opened f], Return (counted st))).
  { intros st. rewrite check_file_run, Hexn. unfold file_events, after_file.
    now rewrite Herr, Hbad, Hexc. }
  split; [exact Hturn|]. split.
  { intros st rest. cbn [for_each]. rewrite Hturn. unfold bind.
    now destruct (for_each (check_file w sch (quiet args)) rest (counted st)). }
  split; [exact Herr|]. split; [exact Hbad|]. split.
  { now apply status_1_when_some_invalid with sch f. }
  intros Hc. repeat split.
  - rewrite (main_files w args Hs Hd Hc). cbn [fst opened].
    rewrite !opened_app, opened_file_events, opened_error_block.
    cbn. now rewrite app_nil_r.
  - rewrite (main_files w args Hs Hd Hc). cbn [fst validated].
    rewrite !validated_app, validated_file_events, validated_error_block.
    cbn. now rewrite app_nil_r.
  - rewrite (main_files w args Hs Hd Hc). cbn [fst final_counters all_errors].
    right. apply in_or_app. right. apply in_or_app. left.
    assert (Hin : In synthetic
              (flat_map (file_errors w sch) (sorted_paths (discovered w args)))).
    { apply in_flat_map. exists f. split.
      - eapply Permutation_in; [symmetry; apply sorted_paths_perm|exact Hf].
      - rewrite Herr. now left. }
    destruct (flat_map (file_errors w sch) (sorted_paths (discovered w args)))
      as [|e errors]; [destruct Hin|].
    right. apply in_map_iff. now exists synthetic.
  - now apply returns_1_when_some_invalid with sch f.
Qed.

(** The file that does not parse is followed by another, which is opened,
    validated and confirmed. *)
Lemma parse_failure_is_isolated_witness :
  opened (fst (main Sample.mixed Sample.args)) =
    [Sample.schema_path; Sample.file_a; Sample.file_c; Sample.file_e] /\
  validated (fst (main Sample.mixed Sample.args)) =
    [Sample.file_a; Sample.file_e] /\
  In (Stdout (" - repo/logo/c/trafic.json: JSON parse error: " ++
              "Expecting value: line 1 column 1 (char 0)"))
     (fst (main Sample.mixed Sample.args)) /\
  snd (main Sample.mixed Sample.args) = Return 1.
Proof.
  destruct (@parse_failure_is_isolated Sample.mixed Sample.args
              Sample.the_schema Sample.file_c
              "Expecting value: line 1 column 1 (char 0)"
              eq_refl ltac:(vm_compute; tauto) eq_refl)
    as (_ & _ & _ & _ & _ & Hrun).
  destruct (Hrun ltac:(apply no_crash_forallb; reflexivity))
    as (Hopen & Hval & Hline & Hcode).
  split; [exact Hopen|]. split; [exact Hval|]. split; [exact Hline|exact Hcode].
Defined.

(** * The summary line *)

(** C4, as the specification words it, fails twice over.  A run that gets
    past schema loading and discovers no file prints one line, the notice
    that no file was found, and no summary.  And in a run that discovers
    files the call of the validator is outside the [try]: when it raises,
    the exception leaves [main] before the summary is printed. *)
Lemma summary_missing_without_files :
  (schema_of Sample.no_logo Sample.args = Some Sample.the_schema /\
   stdout (fst (main Sample.no_logo Sample.args)) =
     ["No trafic.json files found under repo/logo"] /\
   ~ exists st, In (summary st) (stdout (fst (main Sample.no_logo Sample.args)))) /\
  (schema_of Sample.five Sample.args = Some Sample.the_schema /\
   discovered Sample.five Sample.args <> [] /\
   stdout (fst (main Sample.five Sample.args)) =
     ["OK: repo/logo/b/trafic.json"] /\
   ~ exists st, In (summary st) (stdout (fst (main Sample.five Sample.args)))).
Proof.
  split.
  - split; [reflexivity|]. split; [reflexivity|].
    intros [st [H|[]]]. unfold summary, nl in H. discriminate H.
  - split; [reflexivity|]. split; [vm_compute; discriminate|].
    split; [reflexivity|].
    intros [st [H|[]]]. unfold summary, nl in H. discriminate H.
Qed.

(** C4, amended.  A run that gets past schema loading, discovers at least
    one file and in which the validator raises on no discovered file ends
    its output with the summary line, which gives the number of files
    checked, of valid files and of invalid files; a run that discovers no
    file prints the notice that none was found under the search directory,
    and nothing else; a run in which the validator raises prints no
    summary, and the exception leaves [main]. *)
Theorem summary_printed_when_files_found (w : World) (args : Args) (sch : Json)
  (Hs : schema_of w args = Some sch) :
  (discovered w args <> [] -> no_crash w sch (discovered w args) ->
   let n := List.length (discovered w args) in
   let k := List.length (filter (is_invalid w sch) (discovered w args)) in
   exists log,
     fst (main w args) =
     (log ++ [Stdout (nl ++ "Checked " ++ str_int (Z.of_nat n) ++ " files: " ++
                      str_int (Z.of_nat n - Z.of_nat k) ++ " valid, " ++
                      str_int (Z.of_nat k) ++ " invalid")])%list) /\
  (discovered w args = [] ->
   stdout (fst (main w args)) =
   ["No trafic.json files found under " ++ path_str (search_dir args)]) /\
  (forall exc, crash_of w sch (sorted_paths (discovered w args)) = Some exc ->
   snd (main w args) = Raise exc /\
   forall st, ~ In (summary st) (stdout (fst (main w args)))).
Proof.
  split; [|split].
  - intros Hd Hc n k. rewrite (summary_is_last w args Hs Hd Hc).
    eexists. reflexivity.
  - intros Hd. now rewrite (main_no_files w args Hs Hd).
  - intros exc Hc. rewrite (main_crash w args Hs Hc). split; [reflexivity|].
    intros st H. cbn [fst stdout] in H. rewrite stdout_file_events_clean in H.
    destruct (quiet args); [destruct H|].
    apply in_map_iff in H. destruct H as [f [H _]].
    unfold summary, nl in H. discriminate H.
Qed.

Lemma summary_printed_when_files_found_witness :
  exists log,
    fst (main Sample.two Sample.args) =
    (log ++ [Stdout (nl ++ "Checked 2 files: 1 valid, 1 invalid")])%list.
Proof.
  exact (proj1 (@summary_printed_when_files_found Sample.two Sample.args
                  Sample.the_schema eq_refl)
               ltac:(vm_compute; discriminate)
               ltac:(apply no_crash_forallb; reflexivity)).
Defined.

(** * Violations of one instance *)

(** What [location] gives for the document root and below it. *)
Lemma location_root err : absolute_path err = [] -> location err = "/".
Proof. unfold location. now intros ->. Qed.

(** C5.  [validate_instance] renders every violation the validator
    reports, each once, in ascending order of their paths; the path of a
    violation without parent is the location that is rendered, and a
    violation at the document root is rendered with location ["/"].  (An
    exception of the validator leaves [validate_instance] as it is.) *)
Theorem violations_complete_and_sorted
  (w : World) (sch instance : Json) (instance_path : Path) :
  match iter_errors w sch instance with
  | Return found =>
      exists errs,
        validate_instance w sch instance instance_path =
          ([Validated instance_path], Return (map (render instance_path) errs)) /\
        Permutation errs found /\
        StronglySorted (fun a b => seg_path_le (path a) (path b)) errs /\
        (forall err, In err errs -> parent err = None ->
           absolute_path err = path err) /\
        (forall err, In err errs -> absolute_path err = [] ->
           render instance_path err =
           path_str instance_path ++ ": / -> " ++ message err)
  | Raise exc =>
      validate_instance w sch instance instance_path =
        ([Validated instance_path], Raise exc)
  end.
Proof.
  unfold validate_instance.
  destruct (iter_errors w sch instance) as [found|exc]; [|reflexivity].
  exists (sorted_errors found).
  split; [reflexivity|]. split; [apply sorted_errors_perm|].
  split; [apply sorted_errors_ascending|].
  split; [intros err _ Hp; unfold absolute_path; now rewrite Hp|].
  intros err _ Hroot. unfold render. now rewrite (location_root err Hroot).
Qed.

(** [sorted] is stable: violations at one path keep the order in which
    the validator gave them. *)
Example sample_stable_order :
  map message
    (sorted_errors [Sample.violation "b" [Key "x"]; Sample.violation "a" [];
                    Sample.violation "c" [Key "x"]]) = ["a"; "b"; "c"].
Proof. reflexivity. Qed.

(** Indices compare as numbers: [/9] comes before [/10]. *)
Example sample_violations_in_order :
  snd (validate_instance Sample.three Sample.the_schema (JArr []) Sample.file_a) =
  Return ["repo/logo/a/trafic.json: / -> [] is not of type 'object'";
          "repo/logo/a/trafic.json: /9 -> 9 is not of type 'string'";
          "repo/logo/a/trafic.json: /10 -> 10 is not of type 'string'"].
Proof. reflexivity. Qed.

(** * A search directory that is not there *)

(** C6, as the specification words it, fails: when neither the schema nor
    the search directory is there, the run ends with code 2 on the missing
    schema, before any discovery, and standard output stays empty. *)
Lemma missing_directory_behind_missing_schema :
  fs_exists Sample.bare (search_dir Sample.args) = false /\
  snd (main Sample.bare Sample.args) = Return 2 /\
  stdout (fst (main Sample.bare Sample.args)) = [].
Proof. repeat split. Qed.

(** C6, amended.  In a run that gets past schema loading and whose search
    directory does not exist, discovery gives no file and raises nothing,
    the only line printed says that no trafic.json file was found under
    that directory, and [main] returns 0. *)
Theorem missing_directory_is_not_an_error (w : World) (args : Args) (sch : Json)
  (Hs : schema_of w args = Some sch)
  (Hdir : fs_exists w (search_dir args) = false) :
  discovered w args = [] /\
  stdout (fst (main w args)) =
    ["No trafic.json files found under " ++ path_str (search_dir args)] /\
  stderr (fst (main w args)) = [] /\
  snd (main w args) = Return 0.
Proof.
  assert (Hd : discovered w args = []).
  { unfold discovered, find_trafic_files, search_dir in *.
    destruct (logo_dir args) as [d|].
    - now apply rglob_missing.
    - now rewrite Hdir. }
  rewrite (main_no_files w args Hs Hd). repeat split; auto.
Qed.

Lemma missing_directory_is_not_an_error_witness :
  stdout (fst (main Sample.no_logo Sample.args)) =
    ["No trafic.json files found under repo/logo"] /\
  snd (main Sample.no_logo Sample.args) = Return 0.
Proof.
  destruct (missing_directory_is_not_an_error Sample.no_logo Sample.args
              (sch := Sample.the_schema) eq_refl eq_refl)
    as (_ & Hout & _ & Hcode).
  split; [exact Hout|exact Hcode].
Defined.

(** * Order of processing *)

(** C7.  The discovered files are handled in ascending order of their
    paths, whatever the order in which they were found: they are opened in
    that order after the schema, those that parse are validated in that
    order, the confirmation lines of the valid ones come in that order,
    then the errors grouped by file in that order, then the summary.  A
    run in which the validator raises follows the same order up to the file
    on which it raises. *)
Theorem files_processed_in_sorted_order (w : World) (args : Args) (sch : Json)
  (Hs : schema_of w args = Some sch) :
  let files := sorted_paths (discovered w args) in
  let st := final_counters w sch (discovered w args) in
  StronglySorted path_le files /\
  Permutation files (discovered w args) /\
  (forall found, Permutation found (discovered w args) -> sorted_paths found = files) /\
  opened (fst (main w args)) = schema args :: processed w sch files /\
  validated (fst (main w args)) = filter (parses w) (processed w sch files) /\
  (exists n, processed w sch files = firstn n files) /\
  (no_crash w sch (discovered w args) ->
   opened (fst (main w args)) = schema args :: files /\
   validated (fst (main w args)) = filter (parses w) files /\
   (discovered w args <> [] ->
    stdout (fst (main w args)) =
      ((if quiet args then []
        else map (fun f => ("OK: " ++ path_str f)%string)
                 (filter (fun f => negb (is_invalid w sch f)) files)) ++
       stdout (error_block (flat_map (file_errors w sch) files)) ++
       [summary st])%list)).
Proof.
  intros files st.
  split; [apply sorted_paths_ascending|].
  split; [apply sorted_paths_perm|].
  split; [intros found; apply sorted_paths_order_free|].
  assert (Hgen : opened (fst (main w args)) = schema args :: processed w sch files /\
                 validated (fst (main w args)) =
                   filter (parses w) (processed w sch files)).
  { destruct (run_cases w args sch) as [Hd|[[Hd Hc]|[exc Hc]]].
    - rewrite (main_no_files w args Hs Hd). subst files. rewrite Hd.
      split; reflexivity.
    - rewrite (main_files w args Hs Hd Hc). cbn [fst opened validated].
      subst files. rewrite (processed_all (no_crash_sorted Hc)).
      rewrite !opened_app, opened_file_events, opened_error_block.
      rewrite !validated_app, validated_file_events, validated_error_block.
      cbn. now rewrite !app_nil_r.
    - rewrite (main_crash w args Hs Hc). cbn [fst opened validated].
      now rewrite opened_file_events, validated_file_events. }
  destruct Hgen as [Hopen Hval].
  split; [exact Hopen|]. split; [exact Hval|].
  split; [apply processed_prefix|].
  intros Hc. rewrite Hopen, Hval. subst files.
  rewrite (processed_all (no_crash_sorted Hc)).
  split; [reflexivity|]. split; [reflexivity|]. intros Hd.
  rewrite (main_files w args Hs Hd Hc). cbn [fst stdout]. fold st.
  now rewrite !stdout_app, (stdout_file_events _ (no_crash_sorted Hc)).
Qed.

Lemma files_processed_in_sorted_order_witness :
  opened (fst (main Sample.three Sample.args)) =
    [Sample.schema_path; Sample.file_a; Sample.file_b; Sample.file_c] /\
  stdout (fst (main Sample.three Sample.args)) =
    ["OK: repo/logo/b/trafic.json";
     nl ++ "Validation errors:";
     " - repo/logo/a/trafic.json: / -> [] is not of type 'object'";
     " - repo/logo/a/trafic.json: /9 -> 9 is not of type 'string'";
     " - repo/logo/a/trafic.json: /10 -> 10 is not of type 'string'";
     " - repo/logo/c/trafic.json: JSON parse error: " ++
       "Expecting value: line 1 column 1 (char 0)";
     nl ++ "Checked 3 files: 1 valid, 2 invalid"].
Proof.
  destruct (@files_processed_in_sorted_order Sample.three Sample.args
              Sample.the_schema eq_refl)
    as (_ & _ & _ & _ & _ & _ & Hrun).
  destruct (Hrun ltac:(apply no_crash_forallb; reflexivity))
    as (Hopen & _ & Hout).
  split; [exact Hopen|]. apply Hout. vm_compute. discriminate.
Defined.

(** * Two runs on unchanged input *)

Section SameFiles.
Variables w1 w2 : World.
Hypothesis Hsame : same_files w1 w2.
Variable args : Args.

Lemma same_schema : schema_of w1 args = schema_of w2 args.
Proof.
  unfold schema_of. now rewrite (same_exists Hsame), (same_load Hsame).
Qed.

Lemma same_discovered : Permutation (discovered w1 args) (discovered w2 args).
Proof.
  unfold discovered, find_trafic_files.
  destruct (logo_dir args); [apply (same_rglob Hsame)|].
  rewrite (same_exists Hsame).
  destruct (negb _); [constructor|apply (same_rglob Hsame)].
Qed.

Lemma same_sorted :
  sorted_paths (discovered w1 args) = sorted_paths (discovered w2 args).
Proof. apply sorted_paths_order_free, same_discovered. Qed.

Lemma same_is_invalid sch f : is_invalid w1 sch f = is_invalid w2 sch f.
Proof.
  unfold is_invalid. rewrite (same_load Hsame).
  destruct (fs_load w2 f); [|reflexivity]. now rewrite (same_errors Hsame).
Qed.

Lemma same_file_errors sch f : file_errors w1 sch f = file_errors w2 sch f.
Proof.
  unfold file_errors. rewrite (same_load Hsame).
  destruct (fs_load w2 f); [|reflexivity]. now rewrite (same_errors Hsame).
Qed.

Lemma same_file_events sch q f :
  file_events w1 sch q f = file_events w2 sch q f.
Proof.
  unfold file_events. rewrite (same_load Hsame).
  destruct (fs_load w2 f); [|reflexivity]. now rewrite (same_errors Hsame).
Qed.

Lemma same_final_counters sch :
  final_counters w1 sch (discovered w1 args) =
  final_counters w2 sch (discovered w2 args).
Proof.
  unfold final_counters. rewrite same_sorted. f_equal.
  - f_equal. apply Permutation_length, same_discovered.
  - f_equal. rewrite (filter_ext _ _ (same_is_invalid sch)).
    apply Permutation_length, filter_perm, same_discovered.
  - apply flat_map_ext. intros f. apply same_file_errors.
Qed.

Lemma same_validator_exn sch f :
  validator_exn w1 sch f = validator_exn w2 sch f.
Proof.
  unfold validator_exn. rewrite (same_load Hsame).
  destruct (fs_load w2 f); [|reflexivity]. now rewrite (same_errors Hsame).
Qed.

Lemma same_run : main w1 args = main w2 args.
Proof.
  destruct (schema_of w1 args) as [sch|] eqn:Hs1.
  - assert (Hs2 : schema_of w2 args = Some sch) by now rewrite <- same_schema.
    assert (Hcase : discovered w1 args = [] \/ discovered w1 args <> [])
      by (destruct (discovered w1 args); [now left|now right]).
    destruct Hcase as [Hd1|Hn1].
    + assert (Hd2 : discovered w2 args = []).
      { apply Permutation_nil. rewrite <- Hd1. apply same_discovered. }
      now rewrite (main_no_files w1 args Hs1 Hd1), (main_no_files w2 args Hs2 Hd2).
    + assert (Hn2 : discovered w2 args <> []).
      { intros E. pose proof same_discovered as HP. rewrite E in HP.
        apply Permutation_sym, Permutation_nil in HP. contradiction. }
      rewrite (main_run w1 args Hs1 Hn1), (main_run w2 args Hs2 Hn2).
      cbv zeta. rewrite same_final_counters, same_sorted.
      destruct (processed_ext w1 w2 sch (sorted_paths (discovered w2 args))
                  (fun f _ => same_validator_exn sch f)) as [-> ->].
      rewrite (flat_map_ext _ _ (same_file_events sch (quiet args))).
      reflexivity.
  - assert (Hs2 : schema_of w2 args = None) by now rewrite <- same_schema.
    destruct (fs_exists w1 (schema args)) eqn:Ex1.
    + apply schema_of_none in Hs1. destruct Hs1 as [H|[exc H1]]; [congruence|].
      assert (Ex2 : fs_exists w2 (schema args) = true)
        by now rewrite <- (same_exists Hsame).
      assert (H2 : fs_load w2 (schema args) = Raise exc)
        by now rewrite <- (same_load Hsame).
      now rewrite (main_schema_unreadable w1 args Ex1 H1),
        (main_schema_unreadable w2 args Ex2 H2).
    + assert (Ex2 : fs_exists w2 (schema args) = false)
        by now rewrite <- (same_exists Hsame).
      now rewrite (main_schema_missing w1 args Ex1),
        (main_schema_missing w2 args Ex2).
Qed.
End SameFiles.

(** C8.  Two runs of [main] on the same arguments and the same files (the
    same schema, the same documents, listed in any order by the operating
    system) print the same lines, so the same summary, and return the same
    exit code; the counters behind the summary agree. *)
Theorem runs_on_unchanged_input_agree (w1 w2 : World) (args : Args)
  (Hsame : same_files w1 w2) :
  main w1 args = main w2 args /\
  forall sch,
    total (final_counters w1 sch (discovered w1 args)) =
    total (final_counters w2 sch (discovered w2 args)) /\
    invalid (final_counters w1 sch (discovered w1 args)) =
    invalid (final_counters w2 sch (discovered w2 args)).
Proof.
  split; [now apply same_run|].
  intros sch. now rewrite (same_final_counters Hsame args sch).
Qed.

Lemma sample_same_files : same_files Sample.three Sample.three'.
Proof.
  split; try reflexivity.
  intros d name. cbn.
  destruct (Sample.path_eq_dec d Sample.logo); [|constructor].
  apply (Permutation_app_comm [Sample.file_c; Sample.file_a] [Sample.file_b]).
Defined.

Lemma runs_on_unchanged_input_agree_witness :
  main Sample.three Sample.args = main Sample.three' Sample.args.
Proof.
  exact (proj1 (runs_on_unchanged_input_agree Sample.args sample_same_files)).
Defined.

(** * [--quiet] *)

Section Quiet.
Variable w : World.

Let keep (e : Event) : bool := negb (is_ok_line e).

Lemma keep_error_block errors :
  filter keep (error_block errors) = error_block errors.
Proof.
  destruct errors as [|e errors]; [reflexivity|].
  unfold error_block. generalize (e :: errors). intros l.
  cbn [filter]. change (keep (Stdout (nl ++ "Validation errors:"))) with true.
  cbv iota. f_equal. induction l as [|x l IH]; [reflexivity|].
  cbn [map filter]. change (keep (Stdout (" - " ++ x))) with true.
  cbv iota. now rewrite IH.
Qed.

Lemma keep_file_events sch files :
  filter keep (flat_map (file_events w sch false) files) =
  flat_map (file_events w sch true) files.
Proof.
  induction files as [|f files IH]; [reflexivity|].
  cbn [flat_map]. rewrite filter_app, IH. f_equal.
  unfold file_events. destruct (fs_load w f) as [instance|exc]; [|reflexivity].
  destruct (iter_errors w sch instance) as [[|e es]|exc]; try reflexivity.
  cbn. unfold keep. cbn. now destruct (path_str f).
Qed.

Lemma quiet_run args :
  fst (main w (with_quiet true args)) =
    filter keep (fst (main w (with_quiet false args))) /\
  snd (main w (with_quiet true args)) = snd (main w (with_quiet false args)).
Proof.
  destruct (schema_of w args) as [sch|] eqn:Hs.
  - assert (Hcase : discovered w args = [] \/ discovered w args <> [])
      by (destruct (discovered w args); [now left|now right]).
    destruct Hcase as [Hd|Hn].
    + rewrite (main_no_files w (with_quiet true args) Hs Hd),
        (main_no_files w (with_quiet false args) Hs Hd).
      split; reflexivity.
    + rewrite (main_run w (with_quiet true args) Hs Hn),
        (main_run w (with_quiet false args) Hs Hn).
      cbv zeta. cbn [fst snd quiet with_quiet filter].
      change (discovered w (with_quiet true args)) with (discovered w args).
      change (discovered w (with_quiet false args)) with (discovered w args).
      split; [|reflexivity].
      change (keep (Opened (schema args))) with true.
      cbv iota. f_equal.
      rewrite !filter_app, keep_file_events. f_equal.
      destruct (crash_of w sch (sorted_paths (discovered w args)));
        [reflexivity|].
      rewrite filter_app, keep_error_block. reflexivity.
  - destruct (fs_exists w (schema args)) eqn:Ex.
    + apply schema_of_none in Hs. destruct Hs as [H|[exc H]]; [congruence|].
      rewrite (main_schema_unreadable w (with_quiet true args) Ex H),
        (main_schema_unreadable w (with_quiet false args) Ex H).
      split; reflexivity.
    + rewrite (main_schema_missing w (with_quiet true args) Ex),
        (main_schema_missing w (with_quiet false args) Ex).
      split; reflexivity.
Qed.
End Quiet.

(** C9.  Of two runs that differ in [--quiet] alone, the quiet one causes
    the events of the other without the ["OK: ..."] confirmation lines, in
    the same order: the same files are opened and validated, the same
    errors and the same summary are printed, and the exit code (or the
    exception that leaves [main]) is the same. *)
Theorem quiet_only_hides_confirmations (w : World) (args : Args) :
  fst (main w (with_quiet true args)) =
    filter (fun e => negb (is_ok_line e)) (fst (main w (with_quiet false args))) /\
  snd (main w (with_quiet true args)) = snd (main w (with_quiet false args)) /\
  (forall sch, schema_of w args = Some sch -> discovered w args <> [] ->
   no_crash w sch (discovered w args) ->
   forall q,
     stdout (fst (main w (with_quiet q args))) =
     ((if q then []
       else map (fun f => ("OK: " ++ path_str f)%string)
                (filter (fun f => negb (is_invalid w sch f))
                        (sorted_paths (discovered w args)))) ++
      stdout (error_block (all_errors (final_counters w sch (discovered w args)))) ++
      [summary (final_counters w sch (discovered w args))])%list).
Proof.
  split; [apply quiet_run|]. split; [apply quiet_run|].
  intros sch Hs Hd Hc q.
  rewrite (main_files w (with_quiet q args) Hs Hd Hc).
  cbn [fst stdout quiet with_quiet].
  now rewrite !stdout_app, (stdout_file_events _ (no_crash_sorted Hc)).
Qed.

(** * The counters of the summary *)

(** C10.  In a run that reaches the summary (it gets past schema loading,
    discovers a file, and the validator raises on none), the counters
    printed satisfy [0 <= invalid <= total]; [total] is the number of
    discovered files,
    [invalid] the number of those that are invalid, and the count printed
    as valid is [total - invalid], the number of discovered files that are
    valid. *)
Theorem counters_are_consistent (w : World) (args : Args) (sch : Json)
  (Hs : schema_of w args = Some sch) (Hd : discovered w args <> [])
  (Hc : no_crash w sch (discovered w args)) :
  exists log st,
    fst (main w args) =
      (log ++ [Stdout (nl ++ "Checked " ++ str_int (total st) ++ " files: " ++
                       str_int (total st - invalid st) ++ " valid, " ++
                       str_int (invalid st) ++ " invalid")])%list /\
    0 <= invalid st <= total st /\
    total st = Z.of_nat (List.length (discovered w args)) /\
    invalid st =
      Z.of_nat (List.length (filter (is_invalid w sch) (discovered w args))) /\
    total st - invalid st =
      Z.of_nat (List.length
        (filter (fun f => negb (is_invalid w sch f)) (discovered w args))).
Proof.
  rewrite (summary_is_last w args Hs Hd Hc).
  eexists _, (final_counters w sch (discovered w args)).
  split; [reflexivity|]. cbn [final_counters total invalid].
  pose proof (filter_length (is_invalid w sch) (discovered w args)) as Hlen.
  repeat split; lia.
Qed.

Lemma counters_are_consistent_witness :
  exists log st,
    fst (main Sample.two Sample.args) =
      (log ++ [Stdout (nl ++ "Checked " ++ str_int (total st) ++ " files: " ++
                       str_int (total st - invalid st) ++ " valid, " ++
                       str_int (invalid st) ++ " invalid")])%list /\
    total st = 2 /\ invalid st = 1.
Proof.
  destruct (@counters_are_consistent Sample.two Sample.args
              Sample.the_schema eq_refl
              ltac:(vm_compute; discriminate)
              ltac:(apply no_crash_forallb; reflexivity))
    as (log & st & Hrun & _ & Htotal & Hinvalid & _).
  exists log, st. split; [exact Hrun|]. split; [exact Htotal|exact Hinvalid].
Defined.

(** * Further properties of the script *)

Lemma stderr_app l1 l2 : stderr (l1 ++ l2) = (stderr l1 ++ stderr l2)%list.
Proof.
  induction l1 as [|[line|line|p|p] l1 IH]; simpl; auto. now rewrite IH.
Qed.

Lemma stderr_error_block errors : stderr (error_block errors) = [].
Proof.
  destruct errors as [|e errors]; [reflexivity|]. simpl.
  induction errors; simpl; auto.
Qed.

Lemma stderr_file_events w sch q files :
  stderr (flat_map (file_events w sch q) files) = [].
Proof.
  induction files as [|f files IH]; [reflexivity|].
  cbn [flat_map]. rewrite stderr_app, IH. unfold file_events.
  destruct (fs_load w f) as [instance|exc]; [|reflexivity].
  destruct (iter_errors w sch instance) as [[|e es]|exc];
    try destruct q; reflexivity.
Qed.

Lemma returns_2_without_schema w args :
  schema_of w args = None -> snd (main w args) = Return 2.
Proof.
  intros Hs. destruct (fs_exists w (schema args)) eqn:Ex.
  - apply schema_of_none in Hs. destruct Hs as [H|[exc H]]; [congruence|].
    now rewrite (main_schema_unreadable w args Ex H).
  - now rewrite (main_schema_missing w args Ex).
Qed.

(** Some discovered file is invalid, or none is. *)
Lemma invalid_or_not w sch files :
  (exists f, In f files /\ is_invalid w sch f = true) \/
  (forall f, In f files -> is_invalid w sch f = false).
Proof.
  induction files as [|f files [[g [Hg Hbad]]|IH]].
  - right. intros f [].
  - left. exists g. split; [now right|exact Hbad].
  - destruct (is_invalid w sch f) eqn:E.
    + left. exists f. split; [now left|exact E].
    + right. intros g [<-|Hg]; auto.
Qed.

Lemma crash_of_sorted_none_iff w sch files :
  crash_of w sch (sorted_paths files) = None <-> no_crash w sch files.
Proof.
  rewrite crash_of_none_iff. split; apply no_crash_perm.
  - apply sorted_paths_perm.
  - symmetry. apply sorted_paths_perm.
Qed.


Lemma stderr_past_schema w args sch :
  schema_of w args = Some sch -> stderr (fst (main w args)) = [].
Proof.
  intros Hs. destruct (run_cases w args sch) as [Hd|[[Hd Hc]|[exc Hc]]].
  - now rewrite (main_no_files w args Hs Hd).
  - rewrite (main_files w args Hs Hd Hc). cbn [fst stderr].
    now rewrite !stderr_app, stderr_file_events, stderr_error_block.
  - rewrite (main_crash w args Hs Hc). cbn [fst stderr].
    apply stderr_file_events.
Qed.

Lemma not_2_past_schema w args sch :
  schema_of w args = Some sch -> snd (main w args) <> Return 2.
Proof.
  intros Hs. destruct (run_cases w args sch) as [Hd|[[Hd Hc]|[exc Hc]]].
  - now rewrite (main_no_files w args Hs Hd).
  - destruct (invalid_or_not w sch (discovered w args)) as [[f [Hin Hbad]]|Hgood].
    + rewrite (returns_1_when_some_invalid w args Hs f Hc Hin Hbad). discriminate.
    + rewrite (returns_0_when_all_valid w args Hs Hc Hgood). discriminate.
  - rewrite (raises_when_validator_raises w args Hs Hc). discriminate.
Qed.
Arguments stderr_past_schema w args [sch] _.
Arguments not_2_past_schema w args [sch] _ _.


(** X3.  [--logo-dir] replaces the directory derived from [--root]: once
    it is given, [--root] has no effect on the run; and naming the default
    directory [ROOT/logo] explicitly gives the run of the default, whether
    that directory exists or not. *)
Theorem logo_dir_overrides_root (w : World) (args : Args) :
  (forall d r, main w (with_root r (with_logo_dir d args)) =
               main w (with_logo_dir d args)) /\
  (logo_dir args = None ->
   main w (with_logo_dir (path_div (root args) "logo") args) = main w args).
Proof.
  split; [reflexivity|].
  intros Hnone. unfold main. cbn [schema root logo_dir quiet with_logo_dir].
  rewrite Hnone.
  assert (Hfind : find_trafic_files w (root args) =
                  fs_rglob w (path_div (root args) "logo") "trafic.json").
  { unfold find_trafic_files.
    destruct (fs_exists w (path_div (root args) "logo")) eqn:Ex; [reflexivity|].
    symmetry. now apply rglob_missing. }
  now rewrite Hfind.
Qed.

(** ** The error listing *)

Section Listing.
Variable w : World.
Variable sch : Json.

Lemma file_errors_length f :
  List.length (file_errors w sch f) = n_errors w sch f.
Proof.
  unfold file_errors, n_errors. destruct (fs_load w f); [|reflexivity].
  destruct (iter_errors w sch a); [|reflexivity].
  rewrite length_map. apply Permutation_length, sorted_errors_perm.
Qed.

Lemma no_errors_iff files :
  flat_map (file_errors w sch) files = [] <->
  forall f, In f files -> is_invalid w sch f = false.
Proof.
  induction files as [|f files IH]; cbn [flat_map].
  - split; [intros _ f []|reflexivity].
  - split.
    + intros H. apply app_eq_nil in H. destruct H as [Hf Hrest].
      intros g [<-|Hg]; [|now apply IH].
      destruct (is_invalid w sch f) eqn:E; [|reflexivity].
      apply is_invalid_errors in E. contradiction.
    + intros H. rewrite (proj2 IH) by (intros g Hg; apply H; now right).
      rewrite app_nil_r.
      destruct (file_errors w sch f) eqn:E; [reflexivity|].
      assert (Hbad : is_invalid w sch f = true)
        by (apply is_invalid_errors; rewrite E; discriminate).
      rewrite (H f) in Hbad by now left. discriminate.
Qed.

Lemma final_errors_nil_iff files :
  all_errors (final_counters w sch files) = [] <->
  forall f, In f files -> is_invalid w sch f = false.
Proof.
  cbn [final_counters all_errors]. rewrite no_errors_iff. split; intros H f Hf.
  - apply H. eapply Permutation_in; [symmetry; apply sorted_paths_perm|exact Hf].
  - apply H. eapply Permutation_in; [apply sorted_paths_perm|exact Hf].
Qed.

(** The loop prints confirmation lines and nothing else. *)
Lemma loop_prints_ok_lines q files line :
  In (Stdout line) (flat_map (file_events w sch q) files) ->
  exists f, In f files /\ line = "OK: " ++ path_str f.
Proof.
  intros H. apply in_flat_map in H. destruct H as [f [Hf H]].
  exists f. split; [exact Hf|].
  unfold file_events in H. destruct H as [H|H]; [discriminate|].
  destruct (fs_load w f) as [instance|exc]; [|destruct H].
  destruct H as [H|H]; [discriminate|].
  destruct (iter_errors w sch instance) as [[|e es]|exc]; try destruct H.
  destruct q; [destruct H|]. destruct H as [[= <-]|[]]. reflexivity.
Qed.

Lemma header_not_in_loop q files :
  ~ In (Stdout errors_header) (flat_map (file_events w sch q) files).
Proof.
  intros H. apply loop_prints_ok_lines in H. destruct H as [f [_ H]].
  discriminate H.
Qed.

Lemma header_in_block errors :
  In (Stdout errors_header) (error_block errors) <-> errors <> [].
Proof.
  destruct errors as [|e errors]; simpl.
  - split; [intros []|intros H; now contradiction H].
  - split; [discriminate|]. intros _. now left.
Qed.
End Listing.

(** X4.  The ["Validation errors:"] header is printed exactly when the run
    ends with exit code 1. *)
Theorem header_iff_exit_code_1 (w : World) (args : Args) :
  In (Stdout errors_header) (fst (main w args)) <-> snd (main w args) = Return 1.
Proof.
  destruct (schema_of w args) as [sch|] eqn:Hs.
  - destruct (run_cases w args sch) as [Hd|[[Hn Hc]|[exc Hc]]].
    + rewrite (main_no_files w args Hs Hd). cbn [fst snd]. split; [|discriminate].
      intros [H|[H|[]]]; discriminate.
    + destruct (invalid_or_not w sch (discovered w args)) as [[f [Hin Hbad]]|Hgood].
      * rewrite (returns_1_when_some_invalid w args Hs f Hc Hin Hbad).
        split; [reflexivity|]. intros _.
        rewrite (main_files w args Hs Hn Hc). cbn [fst].
        right. apply in_or_app. right. apply in_or_app. left.
        apply header_in_block. intros E.
        rewrite (proj1 (final_errors_nil_iff w sch _) E f Hin) in Hbad.
        discriminate.
      * rewrite (returns_0_when_all_valid w args Hs Hc Hgood).
        split; [|discriminate]. intros H.
        rewrite (main_files w args Hs Hn Hc) in H. cbn [fst] in H.
        destruct H as [H|H]; [discriminate|].
        apply in_app_or in H. destruct H as [H|H].
        { now apply header_not_in_loop in H. }
        apply in_app_or in H. destruct H as [H|[H|[]]].
        { exfalso. apply header_in_block in H. apply H.
          now apply final_errors_nil_iff. }
        unfold summary, errors_header, nl in H. discriminate H.
    + rewrite (main_crash w args Hs Hc). cbn [fst snd]. split; [|discriminate].
      intros [H|H]; [discriminate|]. now apply header_not_in_loop in H.
  - rewrite (returns_2_without_schema w args Hs). split; [|discriminate].
    destruct (fs_exists w (schema args)) eqn:Ex.
    + apply schema_of_none in Hs. destruct Hs as [H|[exc H]]; [congruence|].
      rewrite (main_schema_unreadable w args Ex H).
      intros [H'|[H'|[]]]; discriminate.
    + rewrite (main_schema_missing w args Ex). intros [H'|[]]. discriminate.
Qed.

(** ** Counting the lines of a run *)

Section Lines.
Variable w : World.
Variable sch : Json.

Lemma prefix_nil s : String.prefix "" s = true.
Proof. now destruct s. Qed.

Lemma ok_lines_of_loop_clean q files :
  List.length (filter is_ok_line (flat_map (file_events w sch q) files)) =
  if q then 0%nat else List.length (filter (is_clean w sch) files).
Proof.
  induction files as [|f files IH]; [now destruct q|].
  cbn [flat_map filter]. rewrite filter_app, length_app, IH.
  unfold file_events, is_clean.
  destruct (fs_load w f) as [instance|exc]; [|now destruct q].
  destruct (iter_errors w sch instance) as [[|e es]|exc]; destruct q;
    try reflexivity.
  cbn. now rewrite prefix_nil.
Qed.

Lemma ok_lines_of_loop q files :
  no_crash w sch files ->
  List.length (filter is_ok_line (flat_map (file_events w sch q) files)) =
  if q then 0%nat
  else List.length (filter (fun f => negb (is_invalid w sch f)) files).
Proof.
  intros Hc. now rewrite ok_lines_of_loop_clean, (clean_when_no_crash Hc).
Qed.

Lemma ok_lines_of_block errors : filter is_ok_line (error_block errors) = [].
Proof.
  destruct errors as [|e errors]; [reflexivity|].
  unfold error_block. generalize (e :: errors). intros l.
  cbn [filter]. change (is_ok_line (Stdout (nl ++ "Validation errors:"))) with false.
  cbv iota. induction l as [|x l IH]; [reflexivity|].
  cbn [map filter]. change (is_ok_line (Stdout (" - " ++ x))) with false.
  exact IH.
Qed.

Lemma error_lines_of_loop q files :
  filter is_error_line (flat_map (file_events w sch q) files) = [].
Proof.
  induction files as [|f files IH]; [reflexivity|].
  cbn [flat_map]. rewrite filter_app, IH, app_nil_r.
  unfold file_events. destruct (fs_load w f) as [instance|exc]; [|reflexivity].
  destruct (iter_errors w sch instance) as [[|e es]|exc];
    try destruct q; reflexivity.
Qed.

Lemma error_lines_of_block errors :
  List.length (filter is_error_line (error_block errors)) = List.length errors.
Proof.
  destruct errors as [|e errors]; [reflexivity|].
  unfold error_block. generalize (e :: errors). intros l.
  cbn [filter].
  change (is_error_line (Stdout (nl ++ "Validation errors:"))) with false.
  cbv iota. induction l as [|x l IH]; [reflexivity|].
  cbn [map filter].
  replace (is_error_line (Stdout (" - " ++ x))) with true
    by (cbn; now rewrite prefix_nil).
  cbn [List.length]. now rewrite IH.
Qed.

Lemma invalid_le_errors files :
  (List.length (filter (is_invalid w sch) files) <=
   list_sum (map (n_errors w sch) files))%nat.
Proof.
  induction files as [|f files IH]; [reflexivity|].
  cbn [filter map list_sum fold_right]. fold (list_sum (map (n_errors w sch) files)).
  unfold is_invalid at 1, n_errors at 1.
  destruct (fs_load w f) as [instance|exc]; [|cbn [List.length]; lia].
  destruct (iter_errors w sch instance) as [[|e es]|exc]; cbn [List.length]; lia.
Qed.

Lemma final_errors_length files :
  List.length (all_errors (final_counters w sch files)) =
  list_sum (map (n_errors w sch) files).
Proof.
  cbn [final_counters all_errors]. rewrite length_flat_map.
  rewrite (map_ext _ _ (file_errors_length w sch)).
  apply Permutation_list_sum, Permutation_map, sorted_paths_perm.
Qed.
End Lines.

(** X5.  A run that gets past schema loading and in which the validator
    raises on no file prints one ["OK: "] confirmation per valid discovered
    file, and none under [--quiet]: the number of confirmation lines is the
    valid count of the summary. *)
Theorem one_confirmation_per_valid_file (w : World) (args : Args) (sch : Json)
  (Hs : schema_of w args = Some sch)
  (Hc : no_crash w sch (discovered w args)) :
  List.length (filter is_ok_line (fst (main w args))) =
  (if quiet args then 0%nat
   else List.length (filter (fun f => negb (is_invalid w sch f))
                            (discovered w args))) /\
  Z.of_nat (List.length (filter (fun f => negb (is_invalid w sch f))
                                (discovered w args))) =
  total (final_counters w sch (discovered w args)) -
  invalid (final_counters w sch (discovered w args)).
Proof.
  split.
  - assert (Hcase : discovered w args = [] \/ discovered w args <> [])
      by (destruct (discovered w args); [now left|now right]).
    destruct Hcase as [Hd|Hn].
    + rewrite (main_no_files w args Hs Hd), Hd. now destruct (quiet args).
    + rewrite (main_files w args Hs Hn Hc). cbn [fst filter is_ok_line].
      rewrite !filter_app, !length_app,
        (ok_lines_of_loop _ (no_crash_sorted Hc)), ok_lines_of_block.
      cbn [List.length filter].
      change (is_ok_line (Stdout (summary (final_counters w sch (discovered w args)))))
        with false.
      cbn [List.length]. rewrite !Nat.add_0_r.
      destruct (quiet args); [reflexivity|].
      apply Permutation_length, filter_perm, sorted_paths_perm.
  - cbn [final_counters total invalid].
    pose proof (filter_length (is_invalid w sch) (discovered w args)). lia.
Qed.

Lemma one_confirmation_per_valid_file_witness :
  List.length (filter is_ok_line (fst (main Sample.three Sample.args))) = 1%nat.
Proof.
  exact (proj1 (@one_confirmation_per_valid_file Sample.three Sample.args
                  Sample.the_schema eq_refl
                  ltac:(apply no_crash_forallb; reflexivity))).
Defined.

(** X6.  In a run that gets past schema loading and in which the
    validator raises on no file, the error listing has one [" - "] line per
    violation of a file that parses and one per file that does not; the
    invalid count of the summary never exceeds that number of lines. *)
Theorem one_line_per_violation (w : World) (args : Args) (sch : Json)
  (Hs : schema_of w args = Some sch)
  (Hc : no_crash w sch (discovered w args)) :
  List.length (filter is_error_line (fst (main w args))) =
    list_sum (map (n_errors w sch) (discovered w args)) /\
  invalid (final_counters w sch (discovered w args)) <=
    Z.of_nat (list_sum (map (n_errors w sch) (discovered w args))).
Proof.
  split.
  - assert (Hcase : discovered w args = [] \/ discovered w args <> [])
      by (destruct (discovered w args); [now left|now right]).
    destruct Hcase as [Hd|Hn].
    + now rewrite (main_no_files w args Hs Hd), Hd.
    + rewrite (main_files w args Hs Hn Hc). cbn [fst filter is_error_line].
      rewrite !filter_app, !length_app, error_lines_of_loop, error_lines_of_block.
      cbn [List.length filter].
      change (is_error_line
                (Stdout (summary (final_counters w sch (discovered w args)))))
        with false.
      cbn [List.length]. rewrite Nat.add_0_r. apply final_errors_length.
  - cbn [final_counters invalid]. apply inj_le, invalid_le_errors.
Qed.

Lemma one_line_per_violation_witness :
  List.length (filter is_error_line (fst (main Sample.three Sample.args))) = 4%nat /\
  invalid (final_counters Sample.three Sample.the_schema
             (discovered Sample.three Sample.args)) = 2.
Proof.
  split; [|reflexivity].
  exact (proj1 (@one_line_per_violation Sample.three Sample.args
                  Sample.the_schema eq_refl
                  ltac:(apply no_crash_forallb; reflexivity))).
Defined.

(** The errors of a file start with its path, and only an invalid file
    has any. *)
Lemma file_errors_shape w sch f e :
  In e (file_errors w sch f) ->
  is_invalid w sch f = true /\ exists rest, e = path_str f ++ ": " ++ rest.
Proof.
  intros He. split.
  - apply is_invalid_errors. intros E. rewrite E in He. destruct He.
  - unfold file_errors, render in He.
    destruct (fs_load w f) as [instance|exc].
    + destruct (iter_errors w sch instance) as [errs|exc]; [|destruct He].
      apply in_map_iff in He. destruct He as [err [<- _]].
      eexists. reflexivity.
    + destruct He as [<-|[]]. now exists ("JSON parse error: " ++ exc).
Qed.

(** The lines of [all_errors] are the lines of the listing. *)
Lemma listing_in_trace w args sch e :
  schema_of w args = Some sch ->
  no_crash w sch (discovered w args) ->
  In e (all_errors (final_counters w sch (discovered w args))) ->
  In (Stdout (" - " ++ e)) (fst (main w args)).
Proof.
  intros Hs Hc He.
  assert (Hn : discovered w args <> []).
  { intros E. rewrite E in He. destruct He. }
  rewrite (main_files w args Hs Hn Hc). cbn [fst].
  right. apply in_or_app. right. apply in_or_app. left.
  destruct (all_errors (final_counters w sch (discovered w args)))
    as [|e0 errors]; [destruct He|].
  right. apply in_map_iff. now exists e.
Qed.

Lemma trace_in_listing w args sch line :
  schema_of w args = Some sch ->
  In (Stdout (" - " ++ line)) (fst (main w args)) ->
  In line (all_errors (final_counters w sch (discovered w args))).
Proof.
  intros Hs Hline.
  destruct (run_cases w args sch) as [Hd|[[Hn Hc]|[exc Hc]]].
  - rewrite (main_no_files w args Hs Hd) in Hline.
    destruct Hline as [H|[H|[]]]; discriminate.
  - rewrite (main_files w args Hs Hn Hc) in Hline. cbn [fst] in Hline.
    destruct Hline as [H|H]; [discriminate|].
    apply in_app_or in H. destruct H as [H|H].
    { exfalso. apply loop_prints_ok_lines in H. destruct H as [f [_ H]].
      discriminate H. }
    apply in_app_or in H. destruct H as [H|[H|[]]].
    + unfold error_block in H.
      destruct (all_errors (final_counters w sch (discovered w args)))
        as [|e errors]; [destruct H|].
      destruct H as [H|H]; [discriminate|].
      apply in_map_iff in H. destruct H as [e' [Heq Hin]].
      now injection Heq as <-.
    + unfold summary, nl in H. discriminate H.
  - exfalso. rewrite (main_crash w args Hs Hc) in Hline. cbn [fst] in Hline.
    destruct Hline as [H|H]; [discriminate|].
    apply loop_prints_ok_lines in H. destruct H as [f [_ H]]. discriminate H.
Qed.

(** X7.  Every line of the error listing starts with the path of a
    discovered file, followed by [": "], and that file is an invalid one:
    an error always names the file it is about, and a valid file is never
    listed. *)
Theorem error_lines_name_their_file (w : World) (args : Args) (line : string)
  (Hline : In (Stdout (" - " ++ line)) (fst (main w args))) :
  exists f rest,
    In f (discovered w args) /\ line = path_str f ++ ": " ++ rest /\
    forall sch, schema_of w args = Some sch -> is_invalid w sch f = true.
Proof.
  destruct (schema_of w args) as [sch|] eqn:Hs.
  - apply (@trace_in_listing w args sch line Hs) in Hline.
    cbn [final_counters all_errors] in Hline.
    apply in_flat_map in Hline. destruct Hline as [f [Hf He]].
    apply file_errors_shape in He. destruct He as [Hbad [rest ->]].
    exists f, rest. split; [|split; [reflexivity|]].
    + eapply Permutation_in; [apply sorted_paths_perm|exact Hf].
    + now intros sch' [= <-].
  - exfalso. destruct (fs_exists w (schema args)) eqn:Ex.
    + apply schema_of_none in Hs. destruct Hs as [H|[exc H]]; [congruence|].
      rewrite (main_schema_unreadable w args Ex H) in Hline.
      destruct Hline as [H'|[H'|[]]]; discriminate.
    + rewrite (main_schema_missing w args Ex) in Hline.
      destruct Hline as [H'|[]]. discriminate.
Qed.

Lemma error_lines_name_their_file_witness :
  exists f rest,
    In f (discovered Sample.three Sample.args) /\
    "repo/logo/a/trafic.json: /9 -> 9 is not of type 'string'" =
      path_str f ++ ": " ++ rest /\
    forall sch, schema_of Sample.three Sample.args = Some sch ->
                is_invalid Sample.three sch f = true.
Proof.
  apply (error_lines_name_their_file Sample.three Sample.args).
  vm_compute. tauto.
Defined.

(** X11.  In a run that gets past schema loading and in which the
    validator raises on no file, no discovered file is passed over in
    silence: a valid one gets its ["OK: "] line unless [--quiet] is given,
    and an invalid one gets at least one line of the error listing, which
    starts with its path. *)
Theorem every_file_is_reported (w : World) (args : Args) (sch : Json) (f : Path)
  (Hs : schema_of w args = Some sch)
  (Hc : no_crash w sch (discovered w args))
  (Hf : In f (discovered w args)) :
  (is_invalid w sch f = false -> quiet args = false ->
   In (Stdout ("OK: " ++ path_str f)) (fst (main w args))) /\
  (is_invalid w sch f = true ->
   exists rest,
     In (Stdout (" - " ++ path_str f ++ ": " ++ rest)) (fst (main w args))).
Proof.
  assert (Hn : discovered w args <> [])
    by (intros E; rewrite E in Hf; destruct Hf).
  assert (Hsorted : In f (sorted_paths (discovered w args)))
    by (eapply Permutation_in; [symmetry; apply sorted_paths_perm|exact Hf]).
  split.
  - intros Hgood Hq. rewrite (main_files w args Hs Hn Hc). cbn [fst].
    right. apply in_or_app. left. apply in_flat_map. exists f.
    split; [exact Hsorted|]. rewrite Hq.
    assert (Hclean : is_clean w sch f = true)
      by (rewrite clean_iff, Hgood, (Hc f Hf); reflexivity).
    unfold file_events. unfold is_clean in Hclean.
    destruct (fs_load w f) as [instance|exc]; [|discriminate].
    destruct (iter_errors w sch instance) as [[|e es]|exc]; try discriminate.
    right. right. now left.
  - intros Hbad. apply is_invalid_errors in Hbad.
    destruct (file_errors w sch f) as [|e errors] eqn:E; [now contradiction Hbad|].
    assert (He : In e (file_errors w sch f)) by (rewrite E; now left).
    destruct (@file_errors_shape w sch f e He) as [_ [rest ->]].
    exists rest. apply (@listing_in_trace w args sch _ Hs Hc).
    cbn [final_counters all_errors]. apply in_flat_map. now exists f.
Qed.

Lemma every_file_is_reported_witness :
  In (Stdout "OK: repo/logo/b/trafic.json") (fst (main Sample.three Sample.args)) /\
  exists rest,
    In (Stdout (" - repo/logo/c/trafic.json: " ++ rest))
       (fst (main Sample.three Sample.args)).
Proof.
  split.
  - apply (proj1 (@every_file_is_reported Sample.three Sample.args
                    Sample.the_schema Sample.file_b
                    eq_refl ltac:(apply no_crash_forallb; reflexivity)
                    ltac:(vm_compute; tauto)));
      reflexivity.
  - apply (proj2 (@every_file_is_reported Sample.three Sample.args
                    Sample.the_schema Sample.file_c
                    eq_refl ltac:(apply no_crash_forallb; reflexivity)
                    ltac:(vm_compute; tauto))).
    reflexivity.
Defined.

(** ** Order among violations at one path *)

Section Stable.
Context {A K : Type} (key : A -> K) (cmp : K -> K -> comparison) `{!Order cmp}.

Let lt (a b : K) : bool := match cmp a b with Lt => true | _ => false end.
Let at_key (k : K) (x : A) : bool :=
  match cmp (key x) k with Eq => true | _ => false end.

Lemma insert_stable k x l :
  filter (at_key k) (insert key lt x l) = filter (at_key k) (x :: l).
Proof.
  induction l as [|y l IH]; [reflexivity|].
  cbn [insert]. unfold lt at 1. destruct (cmp (key y) (key x)) eqn:E; try reflexivity.
  cbn [filter] in *. rewrite IH.
  destruct (at_key k y) eqn:Ey, (at_key k x) eqn:Ex; try reflexivity.
  unfold at_key in Ey, Ex.
  destruct (cmp (key y) k) eqn:Cy; try discriminate.
  destruct (cmp (key x) k) eqn:Cx; try discriminate.
  apply cmp_eq in Cy, Cx. rewrite Cy, Cx, cmp_refl in E. discriminate.
Qed.

Lemma sorted_stable k l :
  filter (at_key k) (sorted key lt l) = filter (at_key k) l.
Proof.
  induction l as [|x l IH]; [reflexivity|].
  cbn [sorted]. rewrite insert_stable. cbn [filter]. now rewrite IH.
Qed.
End Stable.

(** X8.  [validate_instance] reorders violations by path only: the
    violations reported at one and the same path stay in the order in which
    the validator gave them. *)
Theorem violations_at_one_path_keep_order
  (w : World) (sch instance : Json) (instance_path : Path) :
  match iter_errors w sch instance with
  | Return found =>
      exists errs,
        snd (validate_instance w sch instance instance_path) =
          Return (map (render instance_path) errs) /\
        forall k, filter (at_path k) errs = filter (at_path k) found
  | Raise exc =>
      snd (validate_instance w sch instance instance_path) = Raise exc
  end.
Proof.
  unfold validate_instance.
  destruct (iter_errors w sch instance) as [found|exc]; [|reflexivity].
  exists (sorted_errors found).
  split; [reflexivity|]. intros k.
  apply (sorted_stable path (cmp:=seg_path_compare)).
Qed.

(** ** Locations *)

Lemma append_empty_r s : s ++ "" = s.
Proof. induction s as [|c s IH]; [reflexivity|]. cbn. now rewrite IH. Qed.

Lemma append_assoc_string s t u : (s ++ t) ++ u = s ++ t ++ u.
Proof. induction s as [|c s IH]; [reflexivity|]. cbn. now rewrite IH. Qed.

Lemma concat_empty_sep x l : String.concat "" (x :: l) = x ++ String.concat "" l.
Proof.
  destruct l as [|y l]; [|reflexivity]. cbn. now rewrite append_empty_r.
Qed.

Lemma pointer_cons s p : pointer (s :: p) = "/" ++ seg_str s ++ pointer p.
Proof. unfold pointer. cbn [map]. now rewrite concat_empty_sep. Qed.

Lemma pointer_app p q : pointer (p ++ q) = pointer p ++ pointer q.
Proof.
  induction p as [|s p IH]; [reflexivity|].
  cbn [app]. rewrite !pointer_cons, IH. cbn [append].
  now rewrite append_assoc_string.
Qed.

(** X9.  The location of a violation is ["/"] for the document root and
    otherwise one ["/segment"] per element of its absolute path, so it
    always starts with ["/"]; for a violation below a parent it is the
    location of the parent followed by the violation's own relative
    path. *)
Theorem location_is_a_slash_path (err : ValidationError) :
  location err =
    match absolute_path err with
    | [] => "/"
    | _ :: _ => pointer (absolute_path err)
    end /\
  (exists rest, location err = "/" ++ rest) /\
  (forall up, parent err = Some up -> up <> [] ->
     location err = pointer up ++ pointer (path err)).
Proof.
  assert (Hloc : location err =
                 match absolute_path err with
                 | [] => "/"
                 | _ :: _ => pointer (absolute_path err)
                 end).
  { unfold location. fold (pointer (absolute_path err)).
    destruct (absolute_path err) as [|s p]; [reflexivity|].
    rewrite pointer_cons. reflexivity. }
  split; [exact Hloc|]. split.
  - rewrite Hloc. destruct (absolute_path err) as [|s p]; [now exists ""|].
    rewrite pointer_cons. eexists. reflexivity.
  - intros up Hup Hne. rewrite Hloc. unfold absolute_path. rewrite Hup.
    rewrite <- pointer_app. destruct up as [|s up]; [now contradiction Hne|].
    reflexivity.
Qed.

(** ** Files a run does not depend on *)

Lemma flat_map_ext_in {A B} (f g : A -> list B) l :
  (forall x, In x l -> f x = g x) -> flat_map f l = flat_map g l.
Proof.
  induction l as [|a l IH]; intros H; [reflexivity|].
  cbn [flat_map]. rewrite (H a) by now left.
  rewrite IH; [reflexivity|]. intros x Hx. apply H. now right.
Qed.

Section SameInputs.
Variables w1 w2 : World.
Variable args : Args.
Hypothesis Hsame : same_inputs w1 w2 args.

Lemma inputs_schema_of : schema_of w1 args = schema_of w2 args.
Proof.
  unfold schema_of. now rewrite (inputs_exists Hsame), (inputs_schema Hsame).
Qed.

Lemma inputs_discovered : discovered w1 args = discovered w2 args.
Proof.
  unfold discovered, find_trafic_files.
  destruct (logo_dir args); [apply (inputs_rglob Hsame)|].
  now rewrite (inputs_exists Hsame), (inputs_rglob Hsame).
Qed.

Lemma inputs_is_invalid sch f :
  In f (discovered w1 args) -> is_invalid w1 sch f = is_invalid w2 sch f.
Proof.
  intros Hf. unfold is_invalid. rewrite (inputs_files Hsame f Hf).
  destruct (fs_load w2 f); [|reflexivity]. now rewrite (inputs_errors Hsame).
Qed.

Lemma inputs_file_errors sch f :
  In f (discovered w1 args) -> file_errors w1 sch f = file_errors w2 sch f.
Proof.
  intros Hf. unfold file_errors. rewrite (inputs_files Hsame f Hf).
  destruct (fs_load w2 f); [|reflexivity]. now rewrite (inputs_errors Hsame).
Qed.

Lemma inputs_file_events sch q f :
  In f (discovered w1 args) -> file_events w1 sch q f = file_events w2 sch q f.
Proof.
  intros Hf. unfold file_events. rewrite (inputs_files Hsame f Hf).
  destruct (fs_load w2 f); [|reflexivity]. now rewrite (inputs_errors Hsame).
Qed.

Lemma inputs_validator_exn sch f :
  In f (discovered w1 args) -> validator_exn w1 sch f = validator_exn w2 sch f.
Proof.
  intros Hf. unfold validator_exn. rewrite (inputs_files Hsame f Hf).
  destruct (fs_load w2 f); [|reflexivity]. now rewrite (inputs_errors Hsame).
Qed.

Lemma in_sorted_discovered f :
  In f (sorted_paths (discovered w1 args)) -> In f (discovered w1 args).
Proof. apply Permutation_in, sorted_paths_perm. Qed.

Lemma inputs_final_counters sch :
  final_counters w1 sch (discovered w1 args) =
  final_counters w2 sch (discovered w2 args).
Proof.
  rewrite <- inputs_discovered. unfold final_counters. f_equal.
  - f_equal. f_equal. apply filter_ext_in. intros f. apply inputs_is_invalid.
  - apply flat_map_ext_in. intros f Hf.
    apply inputs_file_errors, in_sorted_discovered, Hf.
Qed.

End SameInputs.

(** X10.  A run reads the schema and the discovered files and nothing
    else: two file systems that list alike and agree on the schema and on
    the discovered files give the same output and the same exit code (or
    the same exception of the validator), whatever their other files
    hold. *)
Theorem run_depends_on_discovered_files_only (w1 w2 : World) (args : Args)
  (Hsame : same_inputs w1 w2 args) :
  main w1 args = main w2 args.
Proof.
  pose proof (inputs_schema_of Hsame) as Hschema.
  pose proof (inputs_discovered Hsame) as Hdisc.
  destruct (schema_of w1 args) as [sch|] eqn:Hs1; symmetry in Hschema.
  - assert (Hcase : discovered w1 args = [] \/ discovered w1 args <> [])
      by (destruct (discovered w1 args); [now left|now right]).
    destruct Hcase as [Hd1|Hn1].
    + assert (Hd2 : discovered w2 args = []) by now rewrite <- Hdisc.
      now rewrite (main_no_files w1 args Hs1 Hd1),
        (main_no_files w2 args Hschema Hd2).
    + assert (Hn2 : discovered w2 args <> []) by now rewrite <- Hdisc.
      rewrite (main_run w1 args Hs1 Hn1), (main_run w2 args Hschema Hn2).
      cbv zeta. rewrite <- (inputs_final_counters Hsame sch), <- Hdisc.
      destruct (processed_ext w1 w2 sch (sorted_paths (discovered w1 args)))
        as [Hproc Hcrash].
      { intros g Hg.
        apply (inputs_validator_exn Hsame), (in_sorted_discovered w1 args), Hg. }
      rewrite <- Hproc, <- Hcrash.
      rewrite (flat_map_ext_in (file_events w1 sch (quiet args))
                 (file_events w2 sch (quiet args))); [reflexivity|].
      intros g Hg.
      apply (inputs_file_events Hsame), (in_sorted_discovered w1 args).
      eapply processed_incl. exact Hg.
  - destruct (fs_exists w1 (schema args)) eqn:Ex1.
    + apply schema_of_none in Hs1. destruct Hs1 as [H|[exc H1]]; [congruence|].
      assert (Ex2 : fs_exists w2 (schema args) = true)
        by now rewrite <- (inputs_exists Hsame).
      assert (H2 : fs_load w2 (schema args) = Raise exc)
        by now rewrite <- (inputs_schema Hsame).
      now rewrite (main_schema_unreadable w1 args Ex1 H1),
        (main_schema_unreadable w2 args Ex2 H2).
    + assert (Ex2 : fs_exists w2 (schema args) = false)
        by now rewrite <- (inputs_exists Hsame).
      now rewrite (main_schema_missing w1 args Ex1),
        (main_schema_missing w2 args Ex2).
Qed.

Lemma sample_same_inputs : same_inputs Sample.three Sample2.three Sample.args.
Proof.
  split; try reflexivity.
  intros f Hf. vm_compute in Hf.
  destruct Hf as [<-|[<-|[<-|[]]]]; reflexivity.
Defined.

Lemma run_depends_on_discovered_files_only_witness :
  fs_load Sample.three Sample2.stray <> fs_load Sample2.three Sample2.stray /\
  main Sample.three Sample.args = main Sample2.three Sample.args.
Proof.
  split; [discriminate|].
  exact (run_depends_on_discovered_files_only sample_same_inputs).
Defined.

(** ** The loop from any state *)

(** X12.  Whatever the counters are when the loop starts, looping over a
    list of files opens them in list order up to the first on which the
    validator raises, that one included, and the exception of that file
    leaves the loop.  When the validator raises on none, the loop ends
    without an exception, has opened each file once, has added the number
    of files to [total] and to [invalid] no more than that, and has only
    appended to [all_errors]: what was recorded before is kept, in
    place. *)
Theorem loop_only_adds (w : World) (sch : Json) (q : bool)
  (files : list Path) (st : Counters) :
  opened (fst (for_each (check_file w sch q) files st)) = processed w sch files /\
  (exists n, processed w sch files = firstn n files) /\
  match crash_of w sch files with
  | Some exc => snd (for_each (check_file w sch q) files st) = Raise exc
  | None =>
      exists st',
        snd (for_each (check_file w sch q) files st) = Return st' /\
        processed w sch files = files /\
        total st' = total st + Z.of_nat (List.length files) /\
        invalid st <= invalid st' <= invalid st + Z.of_nat (List.length files) /\
        exists added, all_errors st' = (all_errors st ++ added)%list
  end.
Proof.
  rewrite for_each_check_file. cbn [fst snd].
  split; [apply opened_file_events|]. split; [apply processed_prefix|].
  destruct (crash_of w sch files) as [exc|] eqn:E; [reflexivity|].
  eexists. split; [reflexivity|].
  split; [apply processed_all; now apply crash_of_none_iff|].
  cbn [total invalid all_errors].
  split; [reflexivity|]. split.
  - pose proof (filter_length_le (is_invalid w sch) files). lia.
  - eexists. reflexivity.
Qed.
